(** * Automated sticker placement: a shallow embedding of the four core stages

    The Python package under [src/src] finds a rectangular box in an image
    ([detect_box.py]), estimates its orientation ([orientation.py]), picks a
    pixel inside it for a sticker ([sticker_position.py]) and composites the
    sticker onto the image ([process_image.py]).

    Numbers.  Python and NumPy floats are modelled by rationals [Q]: every
    finite float is a rational.  The float multiplications, additions and
    divisions of the placement search and of the alpha blend (float32
    arrays) and of the face offset and the sticker's scaling and rotation
    (Python floats, float64) are rounded as IEEE 754 rounds them, to the
    nearest float with ties to even: [float32] and [float64] below, with an
    unbounded exponent range (no overflow, no subnormals: pixel arithmetic
    is far from both).  Comparisons, absolute values, the subtractions of
    the angle normalisations and the tolerance handed to [approxPolyDP] are
    written without rounding, and [np.linspace] by its defining formula on
    the decimal constants of the source.  Integer pixel coordinates are
    [Z].  The float32 arrays built from integer corners (the output of
    [np.int0]) hold integers and are kept in [Z]: float32 holds these, their
    differences and sums exactly up to [2^23] in absolute value.  [None] as
    an argument or a result is [None] of an option type; for the
    compositor, whose OpenCV and NumPy operations can raise, [None] as a
    result is that exception.

    OpenCV and NumPy routines are not part of the package.  They are the
    fields of the classes [GeometryPrimitives], [ContourPrimitives] and
    [ImagePrimitives]; the package's functions are defined, and most
    properties are proved, for an arbitrary implementation of them.
    Properties of concrete rectangles need to know what the routines return
    there: this is stated as contracts ([upright_boxPoints], [axis_norm],
    ...), and the module [Reference] gives instances, exact on upright
    rectangles, that meet them. *)

From Stdlib Require Import ZArith QArith Qround Qabs Qpower Qreduction.
From Stdlib Require Import Lqa Lia Bool List String Morphisms.
From Stdlib Require Import Permutation Sorted.
Import ListNotations.

Open Scope Z_scope.

(** ** Python and NumPy scalars *)

(** [a < b] on floats, as a boolean. *)
Definition Qltb (a b : Q) : bool := negb (Qle_bool b a).

(** Python's [int(x)] on a float, and NumPy's cast of a float to an integer
    type: truncation toward zero. *)
Definition py_int (x : Q) : Z := Z.quot (Qnum x) (Zpos (Qden x)).

(** Python's two-argument [max(a, b)]: [b] only when [b > a]. *)
Definition py_max2 (a b : Q) : Q := if Qltb a b then b else a.

(** Python's two-argument [min(a, b)]: [b] only when [b < a]. *)
Definition py_min2 (a b : Q) : Q := if Qltb b a then b else a.

(** Python's [max(seq, key=...)]: the first element whose key is maximal.
    [d] stands for the [ValueError] on an empty sequence. *)
Definition py_max_key {A : Type} (key : A -> Q) (l : list A) (d : A) : A :=
  match l with
  | [] => d
  | x :: xs =>
      fold_left (fun best y => if Qltb (key best) (key y) then y else best) xs x
  end.

(** [np.argmin] on a one-dimensional array: the first index of the minimum. *)
Fixpoint argmin_from (best_i : nat) (best : Z) (i : nat) (l : list Z) : nat :=
  match l with
  | [] => best_i
  | y :: l' =>
      if y <? best then argmin_from i y (S i) l'
      else argmin_from best_i best (S i) l'
  end.

Definition argmin (l : list Z) : nat :=
  match l with
  | [] => O
  | y :: l' => argmin_from O y 1%nat l'
  end.

(** [np.linspace(start, stop, num)] with the default [endpoint=True]:
    [arange(num) * step + start] with [step = (stop - start) / (num - 1)],
    and the last sample overwritten by [stop]. *)
Definition linspace (start stop : Q) (num : nat) : list Q :=
  let div := inject_Z (Z.of_nat (num - 1)) in
  let step := ((stop - start) / div)%Q in
  let y := map (fun i => (inject_Z (Z.of_nat i) * step + start)%Q) (seq 0 num) in
  if (1 <? num)%nat then removelast y ++ [stop] else y.

(** A list of floats that never increases. *)
Definition descending (l : list Q) : Prop :=
  forall i j, (i <= j < List.length l)%nat -> (nth j l 0 <= nth i l 0)%Q.

(** ** Floating point *)

(** The nearest integer, a tie going to the even one. *)
Definition round_half_even (s : Q) : Z :=
  let f := Qfloor s in
  match (s - inject_Z f ?= 1 # 2)%Q with
  | Lt => f
  | Gt => f + 1
  | Eq => if Z.even f then f else f + 1
  end.

(** The exponent [e] of the last place of [x <> 0] among the binary floats
    of [prec] significant digits: [2^(prec-1) <= |x| / 2^e < 2^prec]. *)
Definition float_exponent (prec : Z) (x : Q) : Z :=
  let e0 := Z.log2 (Z.abs (Qnum x)) - Z.log2 (Zpos (Qden x)) - prec in
  if Qltb (Qabs x) (2 ^ (prec + e0))%Q then e0 else e0 + 1.

(** IEEE 754 rounding to nearest, ties to even, onto the binary floats of
    [prec] significant digits: the significand [x / 2^e] is rounded to an
    integer. *)
Definition round_float (prec : Z) (x : Q) : Q :=
  let x := Qred x in
  if Qeq_bool x 0 then 0%Q
  else
    let e := float_exponent prec x in
    (inject_Z (round_half_even (x / 2 ^ e)) * 2 ^ e)%Q.

(** The result of one arithmetic operation in [np.float32] and in
    [np.float64] (Python's [float]): the exact result, rounded. *)
Definition float32 : Q -> Q := round_float 24.
Definition float64 : Q -> Q := round_float 53.

(** The floats of [prec] significant digits: an integer significand of
    absolute value at most [2^prec] times a power of two. *)
Definition representable (prec : Z) (f : Q) : Prop :=
  exists m e : Z, Z.abs m <= 2 ^ prec /\ (f == inject_Z m * 2 ^ e)%Q.

(** ** Data model *)

Definition Point : Type := (Z * Z)%type.
Definition PointF : Type := (Q * Q)%type.

(** The tuple that [cv2.minAreaRect] returns:
    [((center_x, center_y), (width, height), angle)]. *)
Record RotatedRect : Type := mkRotatedRect {
  center : PointF;
  size : PointF;
  rawAngle : Q
}.

(** A 4x2 array: four points in cyclic order. *)
Definition quad (A : Type) : Type := (A * A * A * A)%type.

Definition corner {A : Type} (c : quad A) (i : nat) : A :=
  let '(p0, p1, p2, p3) := c in
  match i with
  | O => p0
  | 1%nat => p1
  | 2%nat => p2
  | _ => p3
  end.

Definition quad_list {A : Type} (c : quad A) : list A :=
  let '(p0, p1, p2, p3) := c in [p0; p1; p2; p3].

Definition quad_map {A B : Type} (f : A -> B) (c : quad A) : quad B :=
  let '(p0, p1, p2, p3) := c in (f p0, f p1, f p2, f p3).

(** [np.int0] on an array of points. *)
Definition np_int0 (c : quad PointF) : quad Point :=
  quad_map (fun p => (py_int (fst p), py_int (snd p))) c.

(** A contour: an ordered sequence of integer points. *)
Definition Contour : Type := list Point.

(** A NumPy array of shape [(rows, cols, chans)].  [pix y x c] is the entry
    at row [y], column [x], channel [c]; it is read only inside the shape. *)
Record Raster (A : Type) : Type := mkRaster {
  rows : Z;
  cols : Z;
  chans : Z;
  pix : Z -> Z -> Z -> A
}.
Arguments mkRaster {A} _ _ _ _.
Arguments rows {A} _.
Arguments cols {A} _.
Arguments chans {A} _.
Arguments pix {A} _ _ _ _.

(** A [uint8] image and a [float32] array. *)
Definition Image : Type := Raster Z.
Definition ImageF : Type := Raster Q.

(** The 2x3 matrix of an affine map. *)
Definition Matrix23 : Type := ((Q * Q * Q) * (Q * Q * Q))%type.

(** The geometric routines the package calls. *)
Class GeometryPrimitives : Type := {
  (** [cv2.boxPoints]: the four corners of a rotated rectangle. *)
  boxPoints : RotatedRect -> quad PointF;
  (** [np.linalg.norm] of a two-component vector. *)
  norm : Z * Z -> Q;
  (** [np.arctan2(y, x)], in radians. *)
  arctan2 : Z -> Z -> Q;
  (** [np.degrees]. *)
  degrees : Q -> Q;
  (** [cv2.pointPolygonTest(contour, pt, True)]: the signed distance,
      positive inside, zero on an edge, negative outside. *)
  pointPolygonTest : quad Point -> Point -> Q
}.

(** ** orientation.py *)

Module Orientation.
Section WithPrimitives.
Context {G : GeometryPrimitives}.

Definition get_box_corners (rect : option RotatedRect) : option (quad Point) :=
  match rect with
  | None => None
  | Some r =>
      let box := boxPoints r in
      let box := np_int0 box in
      Some box
  end.

Definition get_box_center (rect : option RotatedRect) : option Point :=
  match rect with
  | None => None
  | Some r =>
      let '(cx, cy) := center r in
      Some (py_int cx, py_int cy)
  end.

(** One entry of the list [edges]: [(edge_vec, edge_length, i)]. *)
Definition edge_info (corners : quad Point) (i : nat) : (Z * Z) * Q * nat :=
  let a := corner corners i in
  let b := corner corners (Nat.modulo (i + 1) 4) in
  let edge_vec := (fst b - fst a, snd b - snd a) in
  let edge_length := norm edge_vec in
  (edge_vec, edge_length, i).

(** Lines 53-61: the normalisation of the primary path: the absolute value
    of a negative angle, its supplement above 90, then the clamp. *)
Definition normalize_corner_angle (angle_deg : Q) : Q :=
  let angle_deg := if Qltb angle_deg 0 then Qabs angle_deg else angle_deg in
  let angle_deg := if Qltb 90 angle_deg then (180 - angle_deg)%Q else angle_deg in
  py_max2 0 (py_min2 90 angle_deg).

(** The primary path: the angle of the longest side, normalised. *)
Definition orientation_from_corners (corners : quad Point) : Q :=
  let edges := map (edge_info corners) (seq 0 4) in
  let longest_edge_info :=
    py_max_key (fun x => snd (fst x)) edges ((0, 0), 0%Q, O) in
  let longest_edge := fst (fst longest_edge_info) in
  let angle_rad := arctan2 (snd longest_edge) (fst longest_edge) in
  let angle_deg := degrees angle_rad in
  normalize_corner_angle angle_deg.

(** The fallback: the fitted angle, normalised by its own formula. *)
Definition orientation_from_raw_angle (min_area_angle : Q) : Q :=
  let normalized_angle := Qabs min_area_angle in
  if Qltb 90 normalized_angle
  then (90 - (normalized_angle - 90))%Q
  else normalized_angle.

Definition calculate_orientation (rect : option RotatedRect) : option Q :=
  match rect with
  | None => None
  | Some r =>
      let min_area_angle := rawAngle r in
      match get_box_corners rect with
      | Some box_corners => Some (orientation_from_corners box_corners)
      | None => Some (orientation_from_raw_angle min_area_angle)
      end
  end.

End WithPrimitives.
End Orientation.

(** ** sticker_position.py *)

Module StickerPosition.
Import Orientation.
Section WithPrimitives.
Context {G : GeometryPrimitives}.

(** The candidate of one loop iteration:
    [center_pt + direction * offset_ratio], each coordinate through [int].
    [direction] and [center_pt] are float32 arrays and [offset_ratio] is a
    float64 scalar of [np.linspace]: NumPy (the versions that have
    [np.int0]) casts the scalar to float32 and multiplies and adds in
    float32. *)
Definition candidate_pt (center_pt : Point) (direction : Z * Z) (offset_ratio : Q)
  : Point :=
  let offset_ratio := float32 offset_ratio in
  let offset_vec :=
    (float32 (inject_Z (fst direction) * offset_ratio),
     float32 (inject_Z (snd direction) * offset_ratio)) in
  let candidate :=
    (float32 (inject_Z (fst center_pt) + fst offset_vec),
     float32 (inject_Z (snd center_pt) + snd offset_vec)) in
  (py_int (fst candidate), py_int (snd candidate)).

(** The [for] loop over the offset ratios; [None] when it runs to its end. *)
Fixpoint search_offsets (box_corners : quad Point) (center_pt : Point)
    (direction : Z * Z) (ratios : list Q) : option Point :=
  match ratios with
  | [] => None
  | offset_ratio :: rest =>
      let pt := candidate_pt center_pt direction offset_ratio in
      let test_result := pointPolygonTest box_corners pt in
      if Qle_bool 0 test_result then Some pt
      else search_offsets box_corners center_pt direction rest
  end.

(** The corner with the least y and the vector from the centre to it. *)
Definition top_corner (corners : quad Point) : Point :=
  let top_corner_idx := argmin (map snd (quad_list corners)) in
  corner corners top_corner_idx.

Definition direction_to (corners : quad Point) (center_pt : Point) : Z * Z :=
  let t := top_corner corners in
  (fst t - fst center_pt, snd t - snd center_pt).

(** [cx] and [cy] are the integers of [get_box_center], so the [int] around
    them in the two [return (int(cx), int(cy))] changes nothing.  The unit
    vector [direction_unit] is computed by the source and never read. *)
Definition calculate_sticker_position (rect : option RotatedRect)
    (offset_percent : Q) : option Point :=
  match rect with
  | None => None
  | Some _ =>
      match get_box_center rect with
      | None => None
      | Some (cx, cy) =>
          match get_box_corners rect with
          | None => None
          | Some box_corners =>
              let direction := direction_to box_corners (cx, cy) in
              let direction_length := norm direction in
              if Qltb direction_length 1 then Some (cx, cy)
              else
                match search_offsets box_corners (cx, cy) direction
                        (linspace offset_percent (5 # 100) 30) with
                | Some pt => Some pt
                | None => Some (cx, cy)
                end
          end
      end
  end.

(** The placement on a face: the centre moved by [offset] pixels along an
    image axis, with 'top' as the default for an unknown face.  The product
    [max(width, height) * offset_percent] is one of Python floats. *)
Definition calculate_sticker_position_on_face (rect : option RotatedRect)
    (face : string) (offset_percent : Q) : option Point :=
  match rect with
  | None => None
  | Some r =>
      match get_box_center rect with
      | None => None
      | Some (cx, cy) =>
          let '(width, height) := size r in
          let offset := py_int (float64 (py_max2 width height * offset_percent)) in
          if String.eqb face "top" then Some (cx, cy - offset)
          else if String.eqb face "bottom" then Some (cx, cy + offset)
          else if String.eqb face "left" then Some (cx - offset, cy)
          else if String.eqb face "right" then Some (cx + offset, cy)
          else Some (cx, cy - offset)
      end
  end.

End WithPrimitives.
End StickerPosition.

(** ** detect_box.py *)

(** The contour routines the package calls. *)
Class ContourPrimitives : Type := {
  (** [cv2.findContours(edges, RETR_EXTERNAL, CHAIN_APPROX_SIMPLE)]. *)
  findContours : Image -> list Contour;
  (** [cv2.contourArea]. *)
  contourArea : Contour -> Q;
  (** [cv2.arcLength(contour, True)]. *)
  arcLength : Contour -> Q;
  (** [cv2.approxPolyDP(contour, epsilon, True)]. *)
  approxPolyDP : Contour -> Q -> list Point
}.

(** Python's [sorted(l, key=key, reverse=True)]: descending, and stable
    (elements with equal keys keep their order). *)
Fixpoint insert_desc {A : Type} (key : A -> Q) (x : A) (l : list A) : list A :=
  match l with
  | [] => [x]
  | y :: l' =>
      if Qle_bool (key y) (key x) then x :: y :: l'
      else y :: insert_desc key x l'
  end.

Definition sorted_reverse {A : Type} (key : A -> Q) (l : list A) : list A :=
  fold_right (insert_desc key) [] l.

Module DetectBox.
Section WithPrimitives.
Context {C : ContourPrimitives}.

(** The test of one loop iteration: four vertices after approximation at
    2% of the perimeter, and an area above 1000. *)
Definition is_box (contour : Contour) : bool :=
  let peri := arcLength contour in
  let approx := approxPolyDP contour ((2 # 100) * peri)%Q in
  if (List.length approx =? 4)%nat then
    let area := contourArea contour in
    Qltb 1000 area
  else false.

(** The [for] loop over the sorted contours; [None] when it runs to its end. *)
Fixpoint first_box (contours : list Contour) : option Contour :=
  match contours with
  | [] => None
  | contour :: rest => if is_box contour then Some contour else first_box rest
  end.

Definition find_box_contour (edges : Image) : option Contour :=
  let contours := findContours edges in
  match contours with
  | [] => None
  | _ :: _ =>
      let contours := sorted_reverse contourArea contours in
      match first_box contours with
      | Some contour => Some contour
      | None => hd_error contours
      end
  end.

End WithPrimitives.

(** The filters and the rectangle fit the rest of the module calls. *)
Class FilterPrimitives : Type := {
  (** [cv2.cvtColor(image, cv2.COLOR_BGR2GRAY)]. *)
  cvtColor_gray : Image -> Image;
  (** [cv2.GaussianBlur(src, ksize, sigmaX)]. *)
  GaussianBlur : Image -> Z * Z -> Q -> Image;
  (** [cv2.Canny(image, threshold1, threshold2)]. *)
  Canny : Image -> Q -> Q -> Image;
  (** [cv2.minAreaRect]. *)
  minAreaRect : Contour -> RotatedRect
}.

Section Detection.
Context {C : ContourPrimitives} {F : FilterPrimitives}.

Definition preprocess_image (image : Image) : Image :=
  let gray := cvtColor_gray image in
  let blurred := GaussianBlur gray (5, 5) 0 in
  let edges := Canny blurred 50 150 in
  edges.

Definition get_min_area_rect (contour : option Contour) : option RotatedRect :=
  match contour with
  | None => None
  | Some c =>
      let rect := minAreaRect c in
      Some rect
  end.

(** The triple [(contour, rect, edges)]. *)
Definition detect_box (image : Image)
  : option Contour * option RotatedRect * Image :=
  let edges := preprocess_image image in
  let contour := find_box_contour edges in
  let rect :=
    match contour with
    | Some _ => get_min_area_rect contour
    | None => None
    end in
  (contour, rect, edges).

End Detection.
End DetectBox.

(** ** process_image.py *)

(** *** NumPy array operations *)

(** A slice bound [i] on an axis of length [n]: negative bounds count from
    the end, and every bound is clipped to the axis. *)
Definition clip_index (i n : Z) : Z :=
  if i <? 0 then Z.max 0 (i + n) else Z.min i n.

(** [start:stop] on an axis of length [n]: the first index and the length. *)
Definition slice_bounds (n start stop : Z) : Z * Z :=
  let s := clip_index start n in
  let e := clip_index stop n in
  (s, Z.max 0 (e - s)).

(** [a[y1:y2, x1:x2]]. *)
Definition crop {A : Type} (a : Raster A) (y1 y2 x1 x2 : Z) : Raster A :=
  let '(oy, ny) := slice_bounds (rows a) y1 y2 in
  let '(ox, nx) := slice_bounds (cols a) x1 x2 in
  mkRaster ny nx (chans a) (fun y x c => pix a (oy + y) (ox + x) c).

(** [a[:, :, c1:c2]]. *)
Definition crop_chans {A : Type} (a : Raster A) (c1 c2 : Z) : Raster A :=
  let '(oc, nc) := slice_bounds (chans a) c1 c2 in
  mkRaster (rows a) (cols a) nc (fun y x c => pix a y x (oc + c)).

(** [np.dstack([a, b])] of two arrays of the same height and width. *)
Definition dstack {A : Type} (a b : Raster A) : Raster A :=
  mkRaster (rows a) (cols a) (chans a + chans b)
    (fun y x c => if c <? chans a then pix a y x c else pix b y x (c - chans a)).

Definition raster_map {A B : Type} (f : A -> B) (a : Raster A) : Raster B :=
  mkRaster (rows a) (cols a) (chans a) (fun y x c => f (pix a y x c)).

(** Broadcasting of one axis: equal lengths, or one of them 1. *)
Definition broadcast_dim (m n : Z) : option Z :=
  if m =? n then Some m
  else if m =? 1 then Some n
  else if n =? 1 then Some m
  else None.

(** The index read on an axis of length [m] under broadcasting. *)
Definition bidx (m i : Z) : Z := if m =? 1 then 0 else i.

(** An element-wise binary operation on two arrays, with broadcasting;
    [None] is NumPy's [ValueError] on shapes that do not broadcast. *)
Definition broadcast2 {A : Type} (f : A -> A -> A) (a b : Raster A)
  : option (Raster A) :=
  match broadcast_dim (rows a) (rows b),
        broadcast_dim (cols a) (cols b),
        broadcast_dim (chans a) (chans b) with
  | Some r, Some c, Some k =>
      Some (mkRaster r c k (fun y x ch =>
              f (pix a (bidx (rows a) y) (bidx (cols a) x) (bidx (chans a) ch))
                (pix b (bidx (rows b) y) (bidx (cols b) x) (bidx (chans b) ch))))
  | _, _, _ => None
  end.

(** [a.astype(np.float32)] and [a.astype(np.uint8)]. *)
Definition astype_float32 (a : Image) : ImageF := raster_map inject_Z a.
Definition to_uint8 (v : Q) : Z := py_int v mod 256.
Definition astype_uint8 (a : ImageF) : Image := raster_map to_uint8 a.

(** [image[y1:y2, x1:x2] = v]: the value is broadcast to the region;
    [None] is NumPy's [ValueError] when it does not fit. *)
Definition fits (m target : Z) : bool := (m =? target) || (m =? 1).

Definition assign_region {A : Type} (image : Raster A) (y1 y2 x1 x2 : Z)
    (v : Raster A) : option (Raster A) :=
  let '(oy, ny) := slice_bounds (rows image) y1 y2 in
  let '(ox, nx) := slice_bounds (cols image) x1 x2 in
  if fits (rows v) ny && fits (cols v) nx && fits (chans v) (chans image) then
    Some (mkRaster (rows image) (cols image) (chans image)
            (fun y x c =>
               if (oy <=? y) && (y <? oy + ny) && (ox <=? x) && (x <? ox + nx)
                  && (0 <=? c) && (c <? chans image)
               then pix v (bidx (rows v) (y - oy)) (bidx (cols v) (x - ox))
                          (bidx (chans v) c)
               else pix image y x c))
  else None.

(** *** The compositor *)

(** The image routines the package calls. *)
Class ImagePrimitives : Type := {
  (** [os.path.exists]. *)
  path_exists : string -> bool;
  (** [cv2.imread(path, cv2.IMREAD_UNCHANGED)]; [None] when unreadable. *)
  imread : string -> option Image;
  (** [cv2.circle(image, center, radius, (0, 0, 255), thickness)]. *)
  circle : Image -> Point -> Z -> Z -> Image;
  (** [cv2.resize(src, (new_w, new_h), interpolation=cv2.INTER_LINEAR)];
      [None] is the [cv2.error] it raises, as it does on an empty target
      size. *)
  resize : Image -> Z * Z -> option Image;
  (** [cv2.getRotationMatrix2D(center, angle, scale)]. *)
  getRotationMatrix2D : Point -> Q -> Q -> Matrix23;
  (** [cv2.warpAffine(src, M, (new_w, new_h))] with linear interpolation
      and a constant zero border. *)
  warpAffine : Image -> Matrix23 -> Z * Z -> Image
}.

Module ProcessImage.
Section WithPrimitives.
Context {I : ImagePrimitives}.

(** The fallback marker: a filled disc of radius 8 and a ring of radius 12. *)
Definition draw_default_marker (image : Image) (position : Point) : Image :=
  let image := circle image position 8 (-1) in
  circle image position 12 2.

(** Lines 87-91: resize when [scale != 1.0]; the products [h * scale] and
    [w * scale] are Python floats.  [None] is the exception of
    [cv2.resize]. *)
Definition scale_sticker (sticker : Image) (scale : Q) : option Image :=
  if negb (Qeq_bool scale 1) then
    let h := rows sticker in
    let w := cols sticker in
    let new_h := py_int (float64 (inject_Z h * scale)) in
    let new_w := py_int (float64 (inject_Z w * scale)) in
    resize sticker (new_w, new_h)
  else Some sticker.

(** Lines 93-128: rotate about the sticker's centre into the enlarged
    bounding box, colour and alpha warped separately.  The matrix holds
    float64 entries; the new size and the shift of the centre are computed
    in float64. *)
Definition rotate_sticker (sticker : Image) (angle : option Q) : Image :=
  match angle with
  | None => sticker
  | Some angle =>
      if Qeq_bool angle 0 then sticker
      else
        let h := rows sticker in
        let w := cols sticker in
        let center_rot := (w / 2, h / 2) in
        let '((m00, m01, m02), (m10, m11, m12)) :=
          getRotationMatrix2D center_rot angle 1 in
        let cos := Qabs m00 in
        let sin := Qabs m01 in
        let new_w :=
          py_int (float64 (float64 (inject_Z h * sin) + float64 (inject_Z w * cos))) in
        let new_h :=
          py_int (float64 (float64 (inject_Z h * cos) + float64 (inject_Z w * sin))) in
        let m02 :=
          float64 (m02 + float64 (float64 (inject_Z new_w / 2)
                                  - inject_Z (fst center_rot))) in
        let m12 :=
          float64 (m12 + float64 (float64 (inject_Z new_h / 2)
                                  - inject_Z (snd center_rot))) in
        let rotation_matrix := ((m00, m01, m02), (m10, m11, m12)) in
        if chans sticker =? 4 then
          let sticker_rgb := crop_chans sticker 0 3 in
          let sticker_alpha := crop_chans sticker 3 4 in
          let rotated_rgb := warpAffine sticker_rgb rotation_matrix (new_w, new_h) in
          let rotated_alpha :=
            warpAffine sticker_alpha rotation_matrix (new_w, new_h) in
          dstack rotated_rgb rotated_alpha
        else warpAffine sticker rotation_matrix (new_w, new_h)
  end.

(** Lines 172-177:
    [roi * (1 - alpha) + sticker_rgb * alpha], back to [uint8].  Every
    array is float32, and each of the five operations rounds to float32. *)
Definition blend (roi sticker_roi : Image) : option Image :=
  let alpha :=
    raster_map (fun a => float32 (a / 255))
      (astype_float32 (crop_chans sticker_roi 3 4)) in
  let sticker_rgb := astype_float32 (crop_chans sticker_roi 0 3) in
  let roi_float := astype_float32 roi in
  let mul := fun a b : Q => float32 (a * b) in
  let add := fun a b : Q => float32 (a + b) in
  match broadcast2 mul roi_float (raster_map (fun a => float32 (1 - a)) alpha) with
  | None => None
  | Some background =>
      match broadcast2 mul sticker_rgb alpha with
      | None => None
      | Some foreground =>
          match broadcast2 add background foreground with
          | None => None
          | Some blended => Some (astype_uint8 blended)
          end
      end
  end.

(** The top-left and bottom-right corners of the sticker centred at
    [position] (lines 131-138). *)
Definition placement (sticker : Image) (position : Point) : Z * Z * Z * Z :=
  let sh := rows sticker in
  let sw := cols sticker in
  let '(sx, sy) := position in
  let x1 := sx - sw / 2 in
  let y1 := sy - sh / 2 in
  let x2 := x1 + sw in
  let y2 := y1 + sh in
  (x1, y1, x2, y2).

(** Lines 130-185: clip the sticker to the canvas and write it.  The
    source also computes [clip_x2] and [clip_y2] and never reads them. *)
Definition place_sticker (image sticker : Image) (position : Point)
  : option Image :=
  let sh := rows sticker in
  let sw := cols sticker in
  let '(x1, y1, x2, y2) := placement sticker position in
  let img_h := rows image in
  let img_w := cols image in
  let clip_x1 := Z.max 0 (- x1) in
  let clip_y1 := Z.max 0 (- y1) in
  if (x2 <? 0) || (y2 <? 0) || (img_w <=? x1) || (img_h <=? y1) then Some image
  else
    let roi_x1 := Z.max 0 x1 in
    let roi_y1 := Z.max 0 y1 in
    let roi_x2 := Z.min img_w x2 in
    let roi_y2 := Z.min img_h y2 in
    let roi := crop image roi_y1 roi_y2 roi_x1 roi_x2 in
    let sticker_x1 := clip_x1 in
    let sticker_y1 := clip_y1 in
    let sticker_x2 := sticker_x1 + (roi_x2 - roi_x1) in
    let sticker_y2 := sticker_y1 + (roi_y2 - roi_y1) in
    let sticker_roi := crop sticker sticker_y1 sticker_y2 sticker_x1 sticker_x2 in
    let roi :=
      if chans sticker_roi =? 4 then blend roi sticker_roi
      else Some sticker_roi in
    match roi with
    | None => None
    | Some roi => assign_region image roi_y1 roi_y2 roi_x1 roi_x2 roi
    end.

(** The sticker as it is placed: read, resized and rotated. *)
Definition prepare_sticker (sticker : Image) (angle : option Q) (scale : Q)
  : option Image :=
  match scale_sticker sticker scale with
  | None => None
  | Some sticker => Some (rotate_sticker sticker angle)
  end.

(** [None] as a result is an exception raised by OpenCV or NumPy. *)
Definition overlay_sticker_image (image : Image) (sticker_path : string)
    (position : option Point) (angle : option Q) (scale : Q) : option Image :=
  match position with
  | None => Some image
  | Some position =>
      if negb (path_exists sticker_path)
      then Some (draw_default_marker image position)
      else
        match imread sticker_path with
        | None => Some (draw_default_marker image position)
        | Some sticker =>
            match prepare_sticker sticker angle scale with
            | None => None
            | Some sticker => place_sticker image sticker position
            end
        end
  end.

End WithPrimitives.
End ProcessImage.

(** ** Notions used in the statements *)

(** [a] may stand before [b] in a list sorted by descending key. *)
Definition key_ge {A : Type} (key : A -> Q) (a b : A) : Prop :=
  (key b <= key a)%Q.

(** The value of one blended channel: canvas byte [p], sticker byte [s] and
    alpha byte [a] through [p * (1 - a / 255) + s * (a / 255)] in float32,
    cast to [uint8]. *)
Definition blend_pixel (p s a : Z) : Z :=
  let alpha := float32 (inject_Z a / 255) in
  to_uint8 (float32 (float32 (inject_Z p * float32 (1 - alpha))
                     + float32 (inject_Z s * alpha))).

(** The lengths of the three axes are not negative. *)
Definition shaped {A : Type} (a : Raster A) : Prop :=
  0 <= rows a /\ 0 <= cols a /\ 0 <= chans a.

(** Every entry inside the shape is a byte. *)
Definition bytes (a : Image) : Prop :=
  forall y x c,
    0 <= y < rows a -> 0 <= x < cols a -> 0 <= c < chans a ->
    0 <= pix a y x c < 256.

(** The canvas pixel at row [Y] and column [X] lies under the sticker
    centred at [position]. *)
Definition overlaps (image sticker : Image) (position : Point) (Y X : Z) : Prop :=
  let '(x1, y1, x2, y2) := ProcessImage.placement sticker position in
  (0 <= Y < rows image /\ 0 <= X < cols image) /\
  (y1 <= Y < y2 /\ x1 <= X < x2).

(** The sticker pixel that lies over the canvas pixel at [Y], [X]. *)
Definition sticker_at (sticker : Image) (position : Point) (Y X c : Z) : Z :=
  let '(x1, y1, _, _) := ProcessImage.placement sticker position in
  pix sticker (Y - y1) (X - x1) c.

Definition same_image (a b : Image) : Prop :=
  rows a = rows b /\ cols a = cols b /\ chans a = chans b /\
  forall y x c, pix a y x c = pix b y x c.

(** [x] lies between [a] and [b], whichever of the two is the smaller. *)
Definition between (a b x : Z) : Prop := Z.min a b <= x <= Z.max a b.

(** The integer [n] is the float [q] truncated: less than one away from it,
    and no farther from zero. *)
Definition truncated (q : Q) (n : Z) : Prop :=
  (Qabs (inject_Z n - q) < 1)%Q /\ (Qabs (inject_Z n) <= Qabs q)%Q.

(** Resizing raises on a target size without pixels; the array that
    resizing returns, when it returns, has the requested size
    [(width, height)] and the channels of its source; the array that
    warping returns has the channels of its source. *)
Definition sized_resampling (I : ImagePrimitives) : Prop :=
  forall (src : Image) (w h : Z),
    (w <= 0 \/ h <= 0 -> resize src (w, h) = None) /\
    (forall dst, resize src (w, h) = Some dst ->
       rows dst = h /\ cols dst = w /\ chans dst = chans src) /\
    forall M : Matrix23, chans (warpAffine src M (w, h)) = chans src.

(** The coordinates of a pixel that float32 arithmetic holds exactly,
    together with the differences and sums of two of them. *)
Definition float32_pixel (p : Point) : Prop :=
  Z.abs (fst p) <= 2 ^ 23 /\ Z.abs (snd p) <= 2 ^ 23.

(** ** Contracts of the geometric routines

    What the theorems on concrete rectangles ask of the external library,
    each stated where it is used: on upright rectangles and on vectors along
    the axes, where OpenCV and NumPy compute exactly. *)

Definition quad_Qeq (a b : quad PointF) : Prop :=
  let '(a0, a1, a2, a3) := a in
  let '(b0, b1, b2, b3) := b in
  (fst a0 == fst b0 /\ snd a0 == snd b0)%Q /\
  (fst a1 == fst b1 /\ snd a1 == snd b1)%Q /\
  (fst a2 == fst b2 /\ snd a2 == snd b2)%Q /\
  (fst a3 == fst b3 /\ snd a3 == snd b3)%Q.

(** Modelled from the spec: corner extraction from a rotated rectangle, a
    routine of the external library.  For a rectangle with fitted angle 0
    OpenCV lists the corners from the one with least x and greatest y,
    then least x and least y, and so on around. *)
Definition upright_corners (cx cy w h : Q) : quad PointF :=
  (((cx - w / 2)%Q, (cy + h / 2)%Q),
   ((cx - w / 2)%Q, (cy - h / 2)%Q),
   ((cx + w / 2)%Q, (cy - h / 2)%Q),
   ((cx + w / 2)%Q, (cy + h / 2)%Q)).

Definition upright_boxPoints (G : GeometryPrimitives) : Prop :=
  forall cx cy w h,
    quad_Qeq (boxPoints (mkRotatedRect (cx, cy) (w, h) 0)) (upright_corners cx cy w h).

(** The length of a vector along an axis is the absolute value of its
    non-zero component. *)
Definition axis_norm (G : GeometryPrimitives) : Prop :=
  forall n : Z, (norm (n, 0%Z) == inject_Z (Z.abs n))%Q /\
                (norm (0%Z, n) == inject_Z (Z.abs n))%Q.

(** The integer corners of an upright rectangle with sides at [xl], [xr],
    [yt] and [yb], in the order of [upright_corners]. *)
Definition upright_quad (xl xr yt yb : Z) : quad Point :=
  ((xl, yb), (xl, yt), (xr, yt), (xr, yb)).


(** The angle of the positive x axis is 0 degrees, and that of the negative
    y axis is -90 degrees. *)
Definition axis_angles (G : GeometryPrimitives) : Prop :=
  (forall x, 0 < x -> (degrees (arctan2 0 x) == 0)%Q) /\
  (forall y, y < 0 -> (degrees (arctan2 y 0) == - (90))%Q).


(** ** Exact instances on upright rectangles *)

Module Reference.

(** Modelled from the spec: the corners of a rotated rectangle, here for
    rectangles whose fitted angle is 0 (the angle is not read). *)
Definition boxPoints_upright (r : RotatedRect) : quad PointF :=
  upright_corners (fst (center r)) (snd (center r)) (fst (size r)) (snd (size r)).

(** Modelled from the spec: the Euclidean length of an integer vector,
    rounded down to an integer; exact when the length is an integer. *)
Definition norm_isqrt (v : Z * Z) : Q :=
  inject_Z (Z.sqrt (fst v * fst v + snd v * snd v)).

(** The float32 nearest to pi. *)
Definition pi_f32 : Q := 13176795 # 4194304.

(** Modelled from the spec: the two-argument arctangent, exact (up to the
    value of [pi_f32]) on the axes; off the axes it answers with the
    diagonal of the quadrant. *)
Definition arctan2_axes (y x : Z) : Q :=
  if y =? 0 then (if 0 <=? x then 0 else pi_f32)
  else if x =? 0 then (if 0 <? y then pi_f32 / 2 else - (pi_f32 / 2))%Q
  else if 0 <? y then (if 0 <? x then pi_f32 / 4 else 3 * pi_f32 / 4)%Q
  else (if 0 <? x then - (pi_f32 / 4) else - (3 * pi_f32 / 4))%Q.

(** Modelled from the spec: radians to degrees. *)
Definition degrees_f32 (x : Q) : Q := (x * 180 / pi_f32)%Q.

(** Modelled from the spec: the signed point-in-polygon test, for the
    corners of an upright rectangle: the distance to the nearest side for a
    point inside or on it, and a negative number outside. *)
Definition pointPolygonTest_upright (c : quad Point) (p : Point) : Q :=
  let xs := map fst (quad_list c) in
  let ys := map snd (quad_list c) in
  let xmin := fold_right Z.min (fst (corner c 0)) xs in
  let xmax := fold_right Z.max (fst (corner c 0)) xs in
  let ymin := fold_right Z.min (snd (corner c 0)) ys in
  let ymax := fold_right Z.max (snd (corner c 0)) ys in
  inject_Z (Z.min (Z.min (fst p - xmin) (xmax - fst p))
                  (Z.min (snd p - ymin) (ymax - snd p))).

Definition geometry : GeometryPrimitives := {|
  boxPoints := boxPoints_upright;
  norm := norm_isqrt;
  arctan2 := arctan2_axes;
  degrees := degrees_f32;
  pointPolygonTest := pointPolygonTest_upright
|}.

(** A 2x2 sticker with an alpha channel, every entry [v] in the colour
    channels and [a] in the alpha channel. *)
Definition flat_sticker (v a : Z) : Image :=
  mkRaster 2 2 4 (fun _ _ c => if c =? 3 then a else v).

(** A 4x4 colour canvas with distinct entries. *)
Definition canvas : Image :=
  mkRaster 4 4 3 (fun y x c => 16 * y + 4 * x + c).

(** A file system in which every path holds the sticker [s]; the resampling
    routines keep the pixels and take the requested size, and resizing
    raises on a size without pixels.  No example rotates: the rotation
    matrix is the identity. *)
Definition images (s : Image) : ImagePrimitives := {|
  path_exists := fun _ => true;
  imread := fun _ => Some s;
  circle := fun image _ _ _ => image;
  resize := fun src sz =>
    if (0 <? fst sz) && (0 <? snd sz)
    then Some (mkRaster (snd sz) (fst sz) (chans src) (pix src))
    else None;
  getRotationMatrix2D := fun _ _ _ => ((1, 0, 0), (0, 1, 0))%Q;
  warpAffine := fun src _ sz => mkRaster (snd sz) (fst sz) (chans src) (pix src)
|}.

(** Modelled from the spec: the enclosed area of a contour, a routine of the
    external library, by the shoelace formula over its vertices. *)
Fixpoint shoelace (first : Point) (c : Contour) : Z :=
  match c with
  | [] => 0
  | p :: rest =>
      match rest with
      | [] => fst p * snd first - fst first * snd p
      | q :: _ => (fst p * snd q - fst q * snd p) + shoelace first rest
      end
  end.

Definition polygon_area (c : Contour) : Q :=
  match c with
  | [] => 0
  | p :: _ => (inject_Z (Z.abs (shoelace p c)) / 2)%Q
  end.

(** Modelled from the spec: the perimeter of a closed contour, exact when
    every side runs along an axis. *)
Fixpoint rectilinear_length (first : Point) (c : Contour) : Z :=
  match c with
  | [] => 0
  | p :: rest =>
      match rest with
      | [] => Z.abs (fst first - fst p) + Z.abs (snd first - snd p)
      | q :: _ =>
          Z.abs (fst q - fst p) + Z.abs (snd q - snd p)
          + rectilinear_length first rest
      end
  end.

Definition rectilinear_perimeter (c : Contour) : Q :=
  match c with
  | [] => 0
  | p :: _ => inject_Z (rectilinear_length p c)
  end.

(** The square contour of side [n] with its least corner at [(x, y)]. *)
Definition square_contour (x y n : Z) : Contour :=
  [(x, y); (x + n, y); (x + n, y + n); (x, y + n)].

(** An edge map in which the contours [found] are found; a polygon whose
    vertices are all corners is its own approximation. *)
Definition contours (found : list Contour) : ContourPrimitives := {|
  findContours := fun _ => found;
  contourArea := polygon_area;
  arcLength := rectilinear_perimeter;
  approxPolyDP := fun c _ => c
|}.

(** A 2x2 sticker without alpha channel, every entry [v]. *)
Definition rgb_sticker (v : Z) : Image := mkRaster 2 2 3 (fun _ _ _ => v).

End Reference.

(** * Properties *)

(** ** Scalars *)

Lemma Qltb_true_iff (a b : Q) : Qltb a b = true <-> (a < b)%Q.
Proof.
  unfold Qltb. rewrite negb_true_iff, <- not_true_iff_false, Qle_bool_iff.
  split; [apply Qnot_le_lt | apply Qlt_not_le].
Qed.

Lemma Qltb_false_iff (a b : Q) : Qltb a b = false <-> (b <= a)%Q.
Proof.
  unfold Qltb. rewrite negb_false_iff. apply Qle_bool_iff.
Qed.

Lemma py_int_inject_Z (n : Z) : py_int (inject_Z n) = n.
Proof. unfold py_int; simpl. apply Z.quot_1_r. Qed.

Lemma py_int_comp (a b : Q) : (a == b)%Q -> py_int a = py_int b.
Proof.
  unfold Qeq, py_int. destruct a as [n d], b as [m e]; simpl. intros H.
  rewrite <- (Z.quot_mul_cancel_r n (Zpos d) (Zpos e)) by lia.
  rewrite <- (Z.quot_mul_cancel_r m (Zpos e) (Zpos d)) by lia.
  rewrite H. f_equal. lia.
Qed.

(** Truncation moves a number by less than one. *)
Lemma py_int_bounds (q : Q) :
  (inject_Z (py_int q) - 1 < q /\ q < inject_Z (py_int q) + 1)%Q.
Proof.
  unfold py_int, Qlt, Qminus, Qplus, Qopp, inject_Z. destruct q as [n d]; simpl.
  pose proof (Z.quot_rem' n (Zpos d)) as E.
  pose proof (Z.rem_bound_abs n (Zpos d) ltac:(lia)) as B.
  generalize dependent (Z.rem n (Zpos d)). generalize (n ÷ Zpos d).
  intros t r E B. subst n. split; lia.
Qed.

(** Two numbers that differ by the integer [k] truncate to integers that
    differ by [k - 1], [k] or [k + 1]. *)
Lemma within_one_shift (a b : Q) (pa pb k : Z) :
  (b == a + inject_Z k)%Q ->
  (inject_Z pa - 1 < a /\ a < inject_Z pa + 1)%Q ->
  (inject_Z pb - 1 < b /\ b < inject_Z pb + 1)%Q ->
  k - 1 <= pb - pa <= k + 1.
Proof.
  intros E [A1 A2] [B1 B2].
  assert (L : (inject_Z pb < inject_Z (pa + k + 2))%Q).
  { rewrite !inject_Z_plus. change (inject_Z 2) with 2%Q. lra. }
  assert (U : (inject_Z (pa + k + -2) < inject_Z pb)%Q).
  { rewrite !inject_Z_plus. change (inject_Z (-2)) with (-2)%Q. lra. }
  rewrite <- Zlt_Qlt in L, U. lia.
Qed.

Lemma py_int_shift (a b : Q) (k : Z) :
  (b == a + inject_Z k)%Q -> k - 1 <= py_int b - py_int a <= k + 1.
Proof.
  intros E.
  exact (within_one_shift a b _ _ k E (py_int_bounds a) (py_int_bounds b)).
Qed.

Lemma clamp_range (x : Q) : (0 <= py_max2 0 (py_min2 90 x) <= 90)%Q.
Proof.
  unfold py_max2, py_min2.
  destruct (Qltb x 90) eqn:E1.
  - apply Qltb_true_iff in E1.
    destruct (Qltb 0 x) eqn:E2.
    + apply Qltb_true_iff in E2. split; lra.
    + split; lra.
  - destruct (Qltb 0 90) eqn:E2; split; lra.
Qed.

(** Case analysis on every float comparison of the goal, innermost first. *)
Ltac split_Qltb :=
  repeat match goal with
  | |- context [Qltb ?a ?b] =>
      lazymatch a with context [Qltb _ _] => fail | _ => idtac end;
      lazymatch b with context [Qltb _ _] => fail | _ => idtac end;
      let E := fresh "E" in
      destruct (Qltb a b) eqn:E;
      [apply Qltb_true_iff in E | apply Qltb_false_iff in E];
      cbv beta iota zeta
  end.

(** ** Floating point

    [round_float] returns a float, and no float is nearer to its argument;
    so it leaves a float as it is and is monotone. *)

Lemma pow2_pos (e : Z) : (0 < 2 ^ e)%Q.
Proof. apply Qpower_0_lt. reflexivity. Qed.

Lemma pow2_plus (a b : Z) : (2 ^ (a + b) == 2 ^ a * 2 ^ b)%Q.
Proof. apply Qpower_plus. discriminate. Qed.

Lemma pow2_Z (n : Z) : 0 <= n -> (inject_Z (2 ^ n) == 2 ^ n)%Q.
Proof. intros H. apply (Zpower_Qpower 2 n H). Qed.

Lemma pow2_le (a b : Z) : a <= b -> (2 ^ a <= 2 ^ b)%Q.
Proof. intros H. apply Qpower_le_compat_l; [exact H | discriminate]. Qed.

Lemma Qfloor_bounds (s : Q) : (inject_Z (Qfloor s) <= s < inject_Z (Qfloor s) + 1)%Q.
Proof.
  split; [apply Qfloor_le |].
  pose proof (Qlt_floor s) as H. rewrite inject_Z_plus in H. exact H.
Qed.

Lemma round_half_even_spec (s : Q) :
  let f := Qfloor s in
  (round_half_even s = f /\ (s - inject_Z f <= 1 # 2)%Q) \/
  (round_half_even s = f + 1 /\ (1 # 2 <= s - inject_Z f)%Q).
Proof.
  cbv zeta. unfold round_half_even.
  destruct (s - inject_Z (Qfloor s) ?= 1 # 2)%Q eqn:E.
  - apply Qeq_alt in E. destruct (Z.even (Qfloor s)); [left | right]; split; auto; lra.
  - apply Qlt_alt in E. left. split; auto. lra.
  - apply Qgt_alt in E. right. split; auto. lra.
Qed.

Lemma round_half_even_nearest (s : Q) (k : Z) :
  (Qabs (s - inject_Z (round_half_even s)) <= Qabs (s - inject_Z k))%Q.
Proof.
  pose proof (Qfloor_bounds s) as [B1 B2].
  destruct (Z_le_gt_dec k (Qfloor s)) as [L | L].
  - rewrite Zle_Qle in L.
    rewrite (Qabs_pos (s - inject_Z k)) by lra.
    destruct (round_half_even_spec s) as [[-> H] | [-> H]].
    + rewrite Qabs_pos by lra. lra.
    + rewrite inject_Z_plus. change (inject_Z 1) with 1%Q.
      rewrite Qabs_neg by lra. lra.
  - assert (L' : Qfloor s + 1 <= k) by lia.
    rewrite Zle_Qle, inject_Z_plus in L'. change (inject_Z 1) with 1%Q in L'.
    rewrite (Qabs_neg (s - inject_Z k)) by lra.
    destruct (round_half_even_spec s) as [[-> H] | [-> H]].
    + rewrite Qabs_pos by lra. lra.
    + rewrite inject_Z_plus. change (inject_Z 1) with 1%Q.
      rewrite Qabs_neg by lra. lra.
Qed.

Lemma round_half_even_Z (k : Z) : round_half_even (inject_Z k) = k.
Proof.
  pose proof (round_half_even_nearest (inject_Z k) k) as H.
  assert (E : (inject_Z k - inject_Z k == 0)%Q) by ring.
  rewrite E in H. change (Qabs 0) with 0%Q in H.
  pose proof (Qabs_nonneg (inject_Z k - inject_Z (round_half_even (inject_Z k)))) as N.
  assert (Z0 : (Qabs (inject_Z k - inject_Z (round_half_even (inject_Z k))) == 0)%Q) by lra.
  destruct (Z.eq_dec (round_half_even (inject_Z k)) k) as [e | n]; [exact e | exfalso].
  assert (C : round_half_even (inject_Z k) < k \/ k < round_half_even (inject_Z k)) by lia.
  destruct C as [C | C]; rewrite Zlt_Qlt in C.
  - rewrite Qabs_pos in Z0 by lra. lra.
  - rewrite Qabs_neg in Z0 by lra. lra.
Qed.

(** Between two integers: the rounding of a real in [[a, b]] stays there. *)
Lemma round_half_even_between (s : Q) (a b : Z) :
  (inject_Z a <= s <= inject_Z b)%Q -> a <= round_half_even s <= b.
Proof.
  intros [A B].
  pose proof (Qfloor_bounds s) as [B1 B2].
  assert (FA : a <= Qfloor s).
  { rewrite <- (Qfloor_Z a). apply Qfloor_resp_le. exact A. }
  assert (FB : Qfloor s <= b).
  { rewrite <- (Qfloor_Z b). apply Qfloor_resp_le. exact B. }
  destruct (round_half_even_spec s) as [[-> H] | [-> H]]; [lia |].
  split; [lia |].
  destruct (Z.eq_dec (Qfloor s) b) as [e | n]; [| lia].
  rewrite e in H. lra.
Qed.

Lemma Qabs_make (n : Z) (d : positive) :
  (Qabs (n # d) * inject_Z (Zpos d) == inject_Z (Z.abs n))%Q.
Proof.
  change (Qabs (n # d)) with (Z.abs n # d). rewrite Qmake_Qdiv. field.
  intros H. discriminate H.
Qed.

Lemma float_exponent_spec (prec : Z) (x : Q) :
  ~ (x == 0)%Q ->
  let e := float_exponent prec x in
  (2 ^ (prec - 1) * 2 ^ e <= Qabs x < 2 ^ prec * 2 ^ e)%Q.
Proof.
  intros NZ. destruct x as [n d].
  assert (Hn : n <> 0).
  { intros ->. apply NZ. reflexivity. }
  assert (Ha : 0 < Z.abs n) by lia.
  pose proof (Z.log2_spec _ Ha) as [A1 A2].
  pose proof (Z.log2_spec (Zpos d) eq_refl) as [D1 D2].
  pose proof (Z.log2_nonneg (Z.abs n)) as La.
  pose proof (Z.log2_nonneg (Zpos d)) as Ld.
  set (la := Z.log2 (Z.abs n)) in *. set (ld := Z.log2 (Zpos d)) in *.
  rewrite Zle_Qle, pow2_Z in A1 by lia. rewrite Zlt_Qlt, pow2_Z in A2 by lia.
  rewrite Zle_Qle, pow2_Z in D1 by lia. rewrite Zlt_Qlt, pow2_Z in D2 by lia.
  pose proof (Qabs_make n d) as XD.
  assert (Dpos : (0 < inject_Z (Zpos d))%Q) by reflexivity.
  set (X := Qabs (n # d)) in *.
  set (e0 := la - ld - prec).
  assert (Lo : (2 ^ (prec - 1) * 2 ^ e0 < X)%Q).
  { rewrite <- pow2_plus. replace (prec - 1 + e0) with (la - ld - 1) by (unfold e0; lia).
    pose proof (pow2_plus (la - ld - 1) (Z.succ ld)) as E.
    replace (la - ld - 1 + Z.succ ld) with la in E by lia.
    pose proof (pow2_pos (la - ld - 1)) as P.
    apply (Qmult_lt_r _ _ (inject_Z (Zpos d))); [exact Dpos |].
    rewrite XD. eapply Qlt_le_trans; [| exact A1]. rewrite E.
    apply Qmult_lt_l; assumption. }
  assert (Hi : (X < 2 ^ prec * 2 ^ (e0 + 1))%Q).
  { rewrite <- pow2_plus. replace (prec + (e0 + 1)) with (la - ld + 1) by (unfold e0; lia).
    pose proof (pow2_plus (la - ld + 1) ld) as E.
    replace (la - ld + 1 + ld) with (Z.succ la) in E by lia.
    pose proof (pow2_pos (la - ld + 1)) as P.
    apply (Qmult_lt_r _ _ (inject_Z (Zpos d))); [exact Dpos |].
    rewrite XD. eapply Qlt_le_trans; [exact A2 |]. rewrite E.
    apply Qmult_le_l; assumption. }
  cbv zeta. unfold float_exponent. cbn [Qnum Qden]. fold la ld e0. fold X.
  destruct (Qltb X (2 ^ (prec + e0))%Q) eqn:T.
  - apply Qltb_true_iff in T. rewrite pow2_plus in T. split; [lra | exact T].
  - apply Qltb_false_iff in T. split; [| exact Hi].
    rewrite <- pow2_plus. replace (prec - 1 + (e0 + 1)) with (prec + e0) by lia. exact T.
Qed.

Lemma round_float_comp (prec : Z) (x y : Q) :
  (x == y)%Q -> round_float prec x = round_float prec y.
Proof. intros E. unfold round_float. rewrite (Qred_complete _ _ E). reflexivity. Qed.

Lemma round_float_0 (prec : Z) : round_float prec 0 = 0%Q.
Proof. reflexivity. Qed.

(** The rounded value, with its integer significand and its exponent. *)
Lemma round_float_spec (prec : Z) (x : Q) :
  ~ (x == 0)%Q ->
  exists e : Z,
    (2 ^ (prec - 1) * 2 ^ e <= Qabs x < 2 ^ prec * 2 ^ e)%Q /\
    round_float prec x = (inject_Z (round_half_even (Qred x / 2 ^ e)) * 2 ^ e)%Q.
Proof.
  intros NZ. exists (float_exponent prec (Qred x)).
  assert (NZ' : ~ (Qred x == 0)%Q) by (rewrite Qred_correct; exact NZ).
  split.
  - rewrite <- (Qred_correct x) at 2 3. apply float_exponent_spec. exact NZ'.
  - unfold round_float. destruct (Qeq_bool (Qred x) 0) eqn:E; [| reflexivity].
    apply Qeq_bool_iff in E. contradiction.
Qed.

Lemma round_float_eq_0 (prec : Z) (x : Q) : (x == 0)%Q -> round_float prec x = 0%Q.
Proof. intros E. rewrite (round_float_comp prec x 0 E). reflexivity. Qed.

Lemma Qabs_lt_pow2 (prec : Z) (s : Q) :
  0 <= prec -> (Qabs s <= 2 ^ prec)%Q ->
  (inject_Z (- 2 ^ prec) <= s <= inject_Z (2 ^ prec))%Q.
Proof.
  intros Hp H. rewrite inject_Z_opp, pow2_Z by exact Hp.
  apply Qabs_Qle_condition. exact H.
Qed.

Lemma scaled_abs (x P s : Q) : (0 < P)%Q -> (s * P == x)%Q -> (Qabs s * P == Qabs x)%Q.
Proof.
  intros HP E. rewrite <- E, Qabs_Qmult, (Qabs_pos P) by lra. reflexivity.
Qed.

Lemma round_float_representable (prec : Z) (x : Q) :
  0 <= prec -> representable prec (round_float prec x).
Proof.
  intros Hp. destruct (Qeq_dec x 0) as [Z0 | NZ].
  - rewrite (round_float_eq_0 _ _ Z0). exists 0, 0. split.
    + pose proof (Z.pow_nonneg 2 prec). simpl. lia.
    + reflexivity.
  - destruct (round_float_spec prec x NZ) as (e & [_ Hi] & ->).
    exists (round_half_even (Qred x / 2 ^ e)), e. split; [| reflexivity].
    pose proof (pow2_pos e) as P.
    assert (S : (Qred x / 2 ^ e * 2 ^ e == x)%Q).
    { rewrite Qred_correct. field. lra. }
    pose proof (scaled_abs _ _ _ P S) as A.
    assert (B : (Qabs (Qred x / 2 ^ e) <= 2 ^ prec)%Q).
    { apply Qlt_le_weak. apply (Qmult_lt_r _ _ (2 ^ e)); [exact P |]. rewrite A. exact Hi. }
    apply (Qabs_lt_pow2 prec _ Hp) in B.
    apply round_half_even_between in B. lia.
Qed.

Lemma round_float_nearest (prec : Z) (x f : Q) :
  1 <= prec -> representable prec f ->
  (Qabs (x - round_float prec x) <= Qabs (x - f))%Q.
Proof.
  intros Hp (m & E & Hm & Hf).
  destruct (Qeq_dec x 0) as [Z0 | NZ].
  - rewrite (round_float_eq_0 _ _ Z0).
    assert (X0 : (x - 0 == x)%Q) by ring. rewrite X0.
    rewrite Z0 at 1. change (Qabs 0) with 0%Q. apply Qabs_nonneg.
  - destruct (round_float_spec prec x NZ) as (e & [Lo _] & ->).
    pose proof (pow2_pos e) as P.
    set (s := (Qred x / 2 ^ e)%Q) in *.
    set (R := round_half_even s).
    assert (S : (s * 2 ^ e == x)%Q).
    { unfold s. rewrite Qred_correct. field. lra. }
    pose proof (scaled_abs _ _ _ P S) as A.
    set (g := (inject_Z m * 2 ^ (E - e))%Q).
    assert (G : (g * 2 ^ e == f)%Q).
    { unfold g. rewrite Hf, <- Qmult_assoc, <- pow2_plus.
      replace (E - e + e) with E by lia. reflexivity. }
    assert (E1 : (x - inject_Z R * 2 ^ e == (s - inject_Z R) * 2 ^ e)%Q).
    { rewrite <- S. ring. }
    assert (E2 : (x - f == (s - g) * 2 ^ e)%Q).
    { rewrite <- S, <- G. ring. }
    rewrite E1, E2, !Qabs_Qmult, (Qabs_pos (2 ^ e)) by lra.
    apply Qmult_le_compat_r; [| lra].
    destruct (Z_le_gt_dec e E) as [L | L].
    + (* f is a multiple of the last place of x *)
      assert (Gz : (g == inject_Z (m * 2 ^ (E - e)))%Q).
      { unfold g. rewrite inject_Z_mult, pow2_Z by lia. reflexivity. }
      rewrite Gz. apply round_half_even_nearest.
    + (* f is below the binade of x *)
      assert (K : (inject_Z (2 ^ (prec - 1)) == 2 ^ (prec - 1))%Q) by (apply pow2_Z; lia).
      assert (Sabs : (2 ^ (prec - 1) <= Qabs s)%Q).
      { apply (Qmult_le_r _ _ (2 ^ e)); [exact P |]. rewrite A. exact Lo. }
      assert (Gabs : (Qabs g <= 2 ^ (prec - 1))%Q).
      { unfold g. rewrite Qabs_Qmult, (Qabs_pos (2 ^ (E - e))) by (pose proof (pow2_pos (E - e)); lra).
        assert (M : (Qabs (inject_Z m) <= 2 ^ prec)%Q).
        { rewrite <- pow2_Z by lia. change (Qabs (inject_Z m)) with (inject_Z (Z.abs m)).
          rewrite <- Zle_Qle. exact Hm. }
        assert (H2 : (2 ^ (E - e) <= 2 ^ (-1))%Q) by (apply pow2_le; lia).
        pose proof (pow2_plus (prec - 1) 1) as PP. replace (prec - 1 + 1) with prec in PP by lia.
        change (2 ^ 1)%Q with 2%Q in PP. change (2 ^ (-1))%Q with (1 # 2)%Q in H2.
        pose proof (pow2_pos (E - e)) as P2. pose proof (pow2_pos (prec - 1)) as P3.
        pose proof (Qabs_nonneg (inject_Z m)) as N.
        assert (T : (Qabs (inject_Z m) * 2 ^ (E - e) <= 2 ^ prec * (1 # 2))%Q).
        { apply Qmult_le_compat_nonneg; split; assumption || lra. }
        lra. }
      apply Qabs_Qle_condition in Gabs.
      destruct (Qlt_le_dec s 0) as [Neg | Pos].
      * rewrite (Qabs_neg s) in Sabs by lra.
        eapply Qle_trans; [apply (round_half_even_nearest s (- 2 ^ (prec - 1))) |].
        rewrite inject_Z_opp, K.
        rewrite (Qabs_neg (s - g)) by lra. rewrite Qabs_neg by lra. lra.
      * rewrite (Qabs_pos s) in Sabs by lra.
        eapply Qle_trans; [apply (round_half_even_nearest s (2 ^ (prec - 1))) |].
        rewrite K.
        rewrite (Qabs_pos (s - g)) by lra. rewrite Qabs_pos by lra. lra.
Qed.

Lemma Qabs_0_eq (a b : Q) : (Qabs (a - b) <= 0)%Q -> (b == a)%Q.
Proof.
  intros H. apply Qabs_Qle_condition in H. lra.
Qed.

(** A float is its own rounding. *)
Lemma round_float_exact (prec : Z) (f : Q) :
  1 <= prec -> representable prec f -> (round_float prec f == f)%Q.
Proof.
  intros Hp Hf. apply Qabs_0_eq.
  eapply Qle_trans; [apply (round_float_nearest prec f f Hp Hf) |].
  assert (E : (f - f == 0)%Q) by ring. rewrite E. discriminate.
Qed.

Lemma representable_Z (prec n : Z) : Z.abs n <= 2 ^ prec -> representable prec (inject_Z n).
Proof.
  intros H. exists n, 0. split; [exact H |]. change (2 ^ 0)%Q with 1%Q. ring.
Qed.

Lemma round_float_Z (prec n : Z) :
  1 <= prec -> Z.abs n <= 2 ^ prec -> (round_float prec (inject_Z n) == inject_Z n)%Q.
Proof. intros Hp H. apply round_float_exact; [exact Hp | apply representable_Z; exact H]. Qed.

(** Rounding is monotone. *)
Lemma round_float_le (prec : Z) (x y : Q) :
  1 <= prec -> (x <= y)%Q -> (round_float prec x <= round_float prec y)%Q.
Proof.
  intros Hp L.
  destruct (Qlt_le_dec (round_float prec y) (round_float prec x)) as [C | C]; [| exact C].
  destruct (Qeq_dec x y) as [E | N].
  - rewrite (round_float_comp prec x y E). lra.
  - assert (Hp0 : 0 <= prec) by lia.
    pose proof (round_float_nearest prec x _ Hp (round_float_representable prec y Hp0)) as Nx.
    pose proof (round_float_nearest prec y _ Hp (round_float_representable prec x Hp0)) as Ny.
    set (rx := round_float prec x) in *. set (ry := round_float prec y) in *.
    exfalso. apply N.
    assert (X : (rx + ry <= 2 * x)%Q).
    { destruct (Qlt_le_dec x rx) as [A | A].
      - rewrite (Qabs_neg (x - rx)) in Nx by lra.
        destruct (Qlt_le_dec x ry) as [B | B].
        + rewrite Qabs_neg in Nx by lra. lra.
        + rewrite Qabs_pos in Nx by lra. lra.
      - lra. }
    assert (Y : (2 * y <= rx + ry)%Q).
    { destruct (Qlt_le_dec ry y) as [A | A].
      - rewrite (Qabs_pos (y - ry)) in Ny by lra.
        destruct (Qlt_le_dec y rx) as [B | B].
        + rewrite Qabs_neg in Ny by lra. lra.
        + rewrite Qabs_pos in Ny by lra. lra.
      - lra. }
    lra.
Qed.

Lemma round_float_nonneg (prec : Z) (x : Q) :
  1 <= prec -> (0 <= x)%Q -> (0 <= round_float prec x)%Q.
Proof. intros Hp H. apply (round_float_le prec 0 x Hp H). Qed.

Lemma round_float_nonpos (prec : Z) (x : Q) :
  1 <= prec -> (x <= 0)%Q -> (round_float prec x <= 0)%Q.
Proof. intros Hp H. apply (round_float_le prec x 0 Hp H). Qed.

(** Rounding keeps a real between two floats between them. *)
Lemma round_float_between (prec : Z) (a b x : Q) :
  1 <= prec -> representable prec a -> representable prec b ->
  (a <= x <= b)%Q -> (a <= round_float prec x <= b)%Q.
Proof.
  intros Hp Ha Hb [A B]. split.
  - rewrite <- (round_float_exact prec a Hp Ha). apply round_float_le; assumption.
  - rewrite <- (round_float_exact prec b Hp Hb). apply round_float_le; assumption.
Qed.

(** The error of a rounding is at most half a unit in the last place. *)
Lemma round_float_error (prec k : Z) (x : Q) :
  1 <= prec -> (Qabs x <= 2 ^ k)%Q ->
  (Qabs (x - round_float prec x) <= 2 ^ (k - prec - 1))%Q.
Proof.
  intros Hp B.
  set (u := (2 ^ (k - prec))%Q).
  assert (U : (0 < u)%Q) by apply pow2_pos.
  set (s := (x / u)%Q).
  assert (S : (s * u == x)%Q) by (unfold s; field; lra).
  pose proof (scaled_abs _ _ _ U S) as A.
  assert (Bs : (Qabs s <= 2 ^ prec)%Q).
  { apply (Qmult_le_r _ _ u); [exact U |]. rewrite A. unfold u. rewrite <- pow2_plus.
    replace (prec + (k - prec)) with k by lia. exact B. }
  apply (Qabs_lt_pow2 prec _ ltac:(lia)) in Bs.
  apply round_half_even_between in Bs.
  set (f := (inject_Z (round_half_even s) * u)%Q).
  assert (F : representable prec f).
  { exists (round_half_even s), (k - prec). split; [lia | reflexivity]. }
  eapply Qle_trans; [apply (round_float_nearest prec x f Hp F) |].
  assert (E : (x - f == (s - inject_Z (round_half_even s)) * u)%Q).
  { unfold f. rewrite <- S. ring. }
  rewrite E, Qabs_Qmult, (Qabs_pos u) by lra.
  pose proof (round_half_even_nearest s (Qfloor s)) as N1.
  pose proof (round_half_even_nearest s (Qfloor s + 1)) as N2.
  pose proof (Qfloor_bounds s) as [F1 F2].
  rewrite inject_Z_plus in N2. change (inject_Z 1) with 1%Q in N2.
  rewrite (Qabs_pos (s - inject_Z (Qfloor s))) in N1 by lra.
  rewrite (Qabs_neg (s - (inject_Z (Qfloor s) + 1))) in N2 by lra.
  assert (H : (Qabs (s - inject_Z (round_half_even s)) <= 1 # 2)%Q) by lra.
  pose proof (pow2_plus (k - prec - 1) 1) as PP.
  replace (k - prec - 1 + 1) with (k - prec) in PP by lia. change (2 ^ 1)%Q with 2%Q in PP.
  fold u in PP.
  pose proof (Qabs_nonneg (s - inject_Z (round_half_even s))) as N.
  assert (T : (Qabs (s - inject_Z (round_half_even s)) * u <= (1 # 2) * u)%Q).
  { apply Qmult_le_compat_r; lra. }
  lra.
Qed.

#[global] Instance round_float_Proper (prec : Z) : Proper (Qeq ==> Qeq) (round_float prec).
Proof. intros x y E. now rewrite (round_float_comp prec x y E). Qed.

#[global] Instance float32_Proper : Proper (Qeq ==> Qeq) float32.
Proof. apply round_float_Proper. Qed.

#[global] Instance float64_Proper : Proper (Qeq ==> Qeq) float64.
Proof. apply round_float_Proper. Qed.

#[global] Instance py_int_Proper : Proper (Qeq ==> eq) py_int.
Proof. intros x y E. now apply py_int_comp. Qed.

(** ** Orientation *)

Import Orientation StickerPosition.

Lemma get_box_corners_None (G : GeometryPrimitives) (rect : option RotatedRect) :
  get_box_corners rect = None <-> rect = None.
Proof.
  destruct rect as [r |]; simpl; split; intros H; try reflexivity; discriminate H.
Qed.

(** C2: for every rectangle that is not [None], whatever the sign or size
    of its fitted angle, [calculate_orientation] returns an angle between 0
    and 90 degrees. *)
Theorem calculate_orientation_range (G : GeometryPrimitives) (r : RotatedRect) :
  exists angle : Q,
    calculate_orientation (Some r) = Some angle /\ (0 <= angle <= 90)%Q.
Proof.
  exists (orientation_from_corners (np_int0 (boxPoints r))). split.
  - reflexivity.
  - unfold orientation_from_corners, normalize_corner_angle. apply clamp_range.
Qed.

(** C9: [get_box_corners] returns [None] only for the argument [None], so
    for every rectangle that is not [None] [calculate_orientation] takes the
    corner-based path and never the fallback on the fitted angle. *)
Theorem calculate_orientation_primary_path (G : GeometryPrimitives) (r : RotatedRect) :
  (forall rect, get_box_corners rect = None <-> rect = None) /\
  exists box_corners,
    get_box_corners (Some r) = Some box_corners /\
    calculate_orientation (Some r) = Some (orientation_from_corners box_corners).
Proof.
  split.
  - apply get_box_corners_None.
  - exists (np_int0 (boxPoints r)). split; reflexivity.
Qed.

(** ** Sticker position *)

(** The loop returns the first candidate that does not test negative. *)
Lemma search_offsets_find (G : GeometryPrimitives) (box_corners : quad Point)
    (center_pt : Point) (direction : Z * Z) (ratios : list Q) :
  search_offsets box_corners center_pt direction ratios =
  find (fun pt => Qle_bool 0 (pointPolygonTest box_corners pt))
       (map (candidate_pt center_pt direction) ratios).
Proof.
  induction ratios as [| offset_ratio rest IH]; simpl.
  - reflexivity.
  - destruct (Qle_bool 0 _); [reflexivity | exact IH].
Qed.

Lemma search_offsets_inside (G : GeometryPrimitives) (box_corners : quad Point)
    (center_pt : Point) (direction : Z * Z) (ratios : list Q) (pt : Point) :
  search_offsets box_corners center_pt direction ratios = Some pt ->
  (0 <= pointPolygonTest box_corners pt)%Q.
Proof.
  rewrite search_offsets_find. intros H.
  apply find_some in H. destruct H as [_ H]. now apply Qle_bool_iff.
Qed.

(** C1: for every rectangle that is not [None] the returned position does
    not test negative against the rectangle's four corners, or it is the
    rectangle's centre; and when the anchor corner is less than one pixel
    from the centre, it is the centre. *)
Theorem calculate_sticker_position_inside_or_center (G : GeometryPrimitives)
    (r : RotatedRect) (offset_percent : Q) :
  exists center_pt box_corners position,
    get_box_center (Some r) = Some center_pt /\
    get_box_corners (Some r) = Some box_corners /\
    calculate_sticker_position (Some r) offset_percent = Some position /\
    ((0 <= pointPolygonTest box_corners position)%Q \/ position = center_pt) /\
    ((norm (direction_to box_corners center_pt) < 1)%Q -> position = center_pt).
Proof.
  unfold calculate_sticker_position, get_box_center, get_box_corners.
  destruct (center r) as [cx cy].
  set (c := (py_int cx, py_int cy)).
  set (box := np_int0 (boxPoints r)).
  destruct (Qltb (norm (direction_to box c)) 1) eqn:D.
  - exists c, box, c. repeat split; auto.
  - apply Qltb_false_iff in D.
    destruct (search_offsets box c (direction_to box c) (linspace offset_percent (5 # 100) 30))
      as [pt |] eqn:S.
    + exists c, box, pt. repeat split.
      * left. eapply search_offsets_inside; eassumption.
      * intros L. exfalso. lra.
    + exists c, box, c. repeat split; auto.
Qed.

(** C10: for every rectangle that is not [None] and every face other than
    'bottom', 'left' and 'right', [calculate_sticker_position_on_face]
    returns what it returns for 'top': the truncated centre moved up by
    [int(max(width, height) * offset_percent)] pixels, the product being
    the one of Python floats. *)
Theorem calculate_sticker_position_on_face_default
    (r : RotatedRect) (face : string) (offset_percent : Q) :
  face <> "bottom"%string -> face <> "left"%string -> face <> "right"%string ->
  calculate_sticker_position_on_face (Some r) face offset_percent =
    calculate_sticker_position_on_face (Some r) "top" offset_percent /\
  calculate_sticker_position_on_face (Some r) face offset_percent =
    Some (py_int (fst (center r)),
          py_int (snd (center r))
          - py_int (float64 (py_max2 (fst (size r)) (snd (size r)) * offset_percent))).
Proof.
  intros Hb Hl Hr.
  apply String.eqb_neq in Hb, Hl, Hr.
  unfold calculate_sticker_position_on_face, get_box_center.
  destruct (center r) as [cx cy], (size r) as [width height]; simpl fst; simpl snd.
  rewrite Hb, Hl, Hr. change (String.eqb "top" "top") with true; cbv iota.
  destruct (String.eqb face "top"); split; reflexivity.
Qed.

Lemma calculate_sticker_position_on_face_default_witness :
  calculate_sticker_position_on_face
    (Some (mkRotatedRect (100, 100) (80, 40) 0)%Q) "sideways" (1 # 10) =
    calculate_sticker_position_on_face
    (Some (mkRotatedRect (100, 100) (80, 40) 0)%Q) "top" (1 # 10) /\
  calculate_sticker_position_on_face
    (Some (mkRotatedRect (100, 100) (80, 40) 0)%Q) "sideways" (1 # 10) =
    Some (100, 92).
Proof.
  destruct (calculate_sticker_position_on_face_default
              (mkRotatedRect (100, 100) (80, 40) 0)%Q "sideways" (1 # 10))
    as [A B]; try (intros H; discriminate H).
  split; [exact A | rewrite B; vm_compute; reflexivity].
Defined.

(** ** Rectangle extraction *)

Section SortedReverse.
Context {A : Type} (key : A -> Q).

Lemma insert_desc_perm (x : A) (l : list A) :
  Permutation (x :: l) (insert_desc key x l).
Proof.
  induction l as [| y l IH]; simpl.
  - apply Permutation_refl.
  - destruct (Qle_bool (key y) (key x)).
    + apply Permutation_refl.
    + eapply perm_trans; [apply perm_swap |]. now apply perm_skip.
Qed.

Lemma sorted_reverse_perm (l : list A) : Permutation l (sorted_reverse key l).
Proof.
  induction l as [| x l IH]; simpl.
  - apply perm_nil.
  - eapply perm_trans; [apply perm_skip, IH | apply insert_desc_perm].
Qed.

Lemma insert_desc_sorted (x : A) (l : list A) :
  StronglySorted (key_ge key) l -> StronglySorted (key_ge key) (insert_desc key x l).
Proof.
  induction 1 as [| y l Hs IH Hy]; simpl.
  - repeat constructor.
  - destruct (Qle_bool (key y) (key x)) eqn:E.
    + apply Qle_bool_iff in E.
      constructor; [now constructor |].
      constructor; [exact E |].
      eapply Forall_impl; [| exact Hy].
      intros z Hz. unfold key_ge in *. lra.
    + assert (L : (key x < key y)%Q).
      { apply Qnot_le_lt. intros H. apply Qle_bool_iff in H. congruence. }
      constructor; [exact IH |].
      eapply Permutation_Forall; [apply insert_desc_perm |].
      constructor; [unfold key_ge; lra | exact Hy].
Qed.

Lemma sorted_reverse_sorted (l : list A) :
  StronglySorted (key_ge key) (sorted_reverse key l).
Proof.
  induction l as [| x l IH]; simpl.
  - constructor.
  - now apply insert_desc_sorted.
Qed.

(** The head of the sorted list has the greatest key of the input. *)
Lemma sorted_reverse_head (l : list A) (top : A) :
  hd_error (sorted_reverse key l) = Some top ->
  In top l /\ forall x, In x l -> (key x <= key top)%Q.
Proof.
  intros H.
  pose proof (sorted_reverse_perm l) as P.
  pose proof (sorted_reverse_sorted l) as S.
  destruct (sorted_reverse key l) as [| y s]; [discriminate H |].
  injection H as ->. split.
  - eapply Permutation_in; [apply Permutation_sym, P | now left].
  - intros x Hx. apply (Permutation_in _ P) in Hx.
    destruct Hx as [-> | Hx]; [lra |].
    inversion S as [| ? ? _ F]; subst.
    rewrite Forall_forall in F. now apply F.
Qed.

End SortedReverse.

Import DetectBox.

Lemma first_box_find (C : ContourPrimitives) (contours : list Contour) :
  first_box contours = find is_box contours.
Proof.
  induction contours as [| c l IH]; simpl; [reflexivity |].
  destruct (is_box c); [reflexivity | exact IH].
Qed.

Lemma find_first {A : Type} (f : A -> bool) (before after : list A) (x : A) :
  (forall y, In y before -> f y = false) -> f x = true ->
  find f (before ++ x :: after) = Some x.
Proof.
  intros Hb Hx. induction before as [| y l IH]; simpl.
  - now rewrite Hx.
  - rewrite (Hb y) by now left. apply IH. intros z Hz. apply Hb. now right.
Qed.

Lemma is_box_iff (C : ContourPrimitives) (contour : Contour) :
  is_box contour = true <->
  List.length (approxPolyDP contour ((2 # 100) * arcLength contour)%Q) = 4%nat /\
  (1000 < contourArea contour)%Q.
Proof.
  unfold is_box.
  destruct (Nat.eqb_spec (List.length (approxPolyDP contour ((2 # 100) * arcLength contour)%Q)) 4)
    as [E | E].
  - rewrite Qltb_true_iff. tauto.
  - split; [discriminate | tauto].
Qed.

(** C4: the contours of the edge map are taken in descending order of area;
    the first one whose approximation at 2% of its perimeter has four
    vertices and whose area exceeds 1000 is returned; when there is none,
    the contour of greatest area is returned; and the result is [None]
    exactly when the edge map has no contour. *)
Theorem find_box_contour_spec (C : ContourPrimitives) (edges : Image) :
  let contours := findContours edges in
  let ordered := sorted_reverse contourArea contours in
  (Permutation contours ordered /\ StronglySorted (key_ge contourArea) ordered) /\
  (forall contour,
      is_box contour = true <->
      List.length (approxPolyDP contour ((2 # 100) * arcLength contour)%Q) = 4%nat /\
      (1000 < contourArea contour)%Q) /\
  (forall before contour after,
      ordered = before ++ contour :: after ->
      (forall c, In c before -> is_box c = false) ->
      is_box contour = true ->
      find_box_contour edges = Some contour) /\
  ((forall c, In c contours -> is_box c = false) ->
   find_box_contour edges = hd_error ordered /\
   forall largest,
     find_box_contour edges = Some largest ->
     In largest contours /\
     forall c, In c contours -> (contourArea c <= contourArea largest)%Q) /\
  (find_box_contour edges = None <-> contours = []).
Proof.
  intros contours ordered.
  assert (P : Permutation contours ordered) by apply sorted_reverse_perm.
  assert (F : contours <> [] ->
              find_box_contour edges =
              match find is_box ordered with
              | Some c => Some c
              | None => hd_error ordered
              end).
  { unfold find_box_contour. fold contours.
    destruct contours as [| c0 l] eqn:E; [congruence |]. intros _.
    rewrite first_box_find. reflexivity. }
  split; [| split; [| split; [| split]]].
  - split; [exact P | apply sorted_reverse_sorted].
  - apply is_box_iff.
  - intros before contour after E Hb Hc.
    rewrite F.
    + rewrite E, find_first; auto.
    + intros N. rewrite N in P. apply Permutation_nil in P.
      rewrite P in E. now destruct before.
  - intros Hnone.
    assert (H : find_box_contour edges = hd_error ordered).
    { destruct contours as [| c0 l] eqn:E.
      - unfold find_box_contour. fold contours. rewrite E.
        subst ordered. reflexivity.
      - rewrite F by discriminate.
        destruct (find is_box ordered) as [c |] eqn:Fi; [| reflexivity].
        apply find_some in Fi. destruct Fi as [Hin Hbox].
        apply (Permutation_in _ (Permutation_sym P)) in Hin.
        rewrite (Hnone c Hin) in Hbox. discriminate Hbox. }
    split; [exact H |].
    intros largest Hl. rewrite H in Hl.
    now apply (sorted_reverse_head contourArea).
  - split.
    + intros N. destruct contours as [| c0 l] eqn:E; [reflexivity |].
      rewrite F in N by discriminate.
      destruct (find is_box ordered); [discriminate N |].
      destruct ordered as [| o1 o]; [| discriminate N].
      apply Permutation_sym, Permutation_nil in P. discriminate P.
    + intros E. unfold find_box_contour. fold contours. now rewrite E.
Qed.

(** ** Upright rectangles *)

Lemma np_int0_upright (G : GeometryPrimitives) (cx cy w h : Q) :
  upright_boxPoints G ->
  np_int0 (boxPoints (mkRotatedRect (cx, cy) (w, h) 0)%Q) =
  np_int0 (upright_corners cx cy w h).
Proof.
  intros H. specialize (H cx cy w h).
  destruct (boxPoints _) as [[[[a0 b0] [a1 b1]] [a2 b2]] [a3 b3]].
  simpl in H. destruct H as [[? ?] [[? ?] [[? ?] [? ?]]]].
  unfold np_int0, upright_corners, quad_map; simpl.
  repeat match goal with
         | E : (_ == _)%Q |- _ => rewrite (py_int_comp _ _ E); clear E
         end.
  reflexivity.
Qed.

Lemma py_max_key_first {A : Type} (key : A -> Q) (a b c d dflt : A) :
  (key b <= key a)%Q -> (key c <= key a)%Q -> (key d <= key a)%Q ->
  py_max_key key [a; b; c; d] dflt = a.
Proof.
  intros Hb Hc Hd. unfold py_max_key; simpl.
  rewrite (proj2 (Qltb_false_iff _ _) Hb), (proj2 (Qltb_false_iff _ _) Hc),
    (proj2 (Qltb_false_iff _ _) Hd).
  reflexivity.
Qed.

Lemma py_max_key_second {A : Type} (key : A -> Q) (a b c d dflt : A) :
  (key a < key b)%Q -> (key c <= key b)%Q -> (key d <= key b)%Q ->
  py_max_key key [a; b; c; d] dflt = b.
Proof.
  intros Ha Hc Hd. unfold py_max_key; simpl.
  rewrite (proj2 (Qltb_true_iff _ _) Ha), (proj2 (Qltb_false_iff _ _) Hc),
    (proj2 (Qltb_false_iff _ _) Hd).
  reflexivity.
Qed.

Lemma normalize_corner_angle_0 (d : Q) :
  (d == 0)%Q -> (normalize_corner_angle d == 0)%Q.
Proof.
  intros D. unfold normalize_corner_angle, py_max2, py_min2.
  split_Qltb; try lra.
Qed.

Lemma normalize_corner_angle_m90 (d : Q) :
  (d == - (90))%Q -> (normalize_corner_angle d == 90)%Q.
Proof.
  intros D. unfold normalize_corner_angle, py_max2, py_min2.
  assert (A : (Qabs d == 90)%Q) by (rewrite D; reflexivity).
  split_Qltb; try lra.
Qed.

Section Upright.
Context (G : GeometryPrimitives) (Hn : axis_norm G) (Ha : axis_angles G).
Context (xl xr yt yb : Z).

Lemma upright_edge_lengths :
  (snd (fst (edge_info (upright_quad xl xr yt yb) 0)) == inject_Z (Z.abs (yb - yt)))%Q /\
  (snd (fst (edge_info (upright_quad xl xr yt yb) 1)) == inject_Z (Z.abs (xr - xl)))%Q /\
  (snd (fst (edge_info (upright_quad xl xr yt yb) 2)) == inject_Z (Z.abs (yb - yt)))%Q /\
  (snd (fst (edge_info (upright_quad xl xr yt yb) 3)) == inject_Z (Z.abs (xr - xl)))%Q.
Proof.
  unfold edge_info; cbn. rewrite !Z.sub_diag.
  repeat split.
  - rewrite (proj2 (Hn _)). replace (Z.abs (yt - yb)) with (Z.abs (yb - yt)) by lia.
    reflexivity.
  - apply (proj1 (Hn _)).
  - apply (proj2 (Hn _)).
  - rewrite (proj1 (Hn _)). replace (Z.abs (xl - xr)) with (Z.abs (xr - xl)) by lia.
    reflexivity.
Qed.

Lemma orientation_wide :
  0 <= yb - yt < xr - xl -> (orientation_from_corners (upright_quad xl xr yt yb) == 0)%Q.
Proof.
  intros B. destruct upright_edge_lengths as (L0 & L1 & L2 & L3).
  unfold orientation_from_corners.
  change (map (edge_info (upright_quad xl xr yt yb)) (seq 0 4))
    with [edge_info (upright_quad xl xr yt yb) 0; edge_info (upright_quad xl xr yt yb) 1; edge_info (upright_quad xl xr yt yb) 2; edge_info (upright_quad xl xr yt yb) 3]%nat.
  cbv zeta.
  rewrite py_max_key_second.
  - cbn. rewrite Z.sub_diag. apply normalize_corner_angle_0, (proj1 Ha). lia.
  - rewrite L0, L1. rewrite <- Zlt_Qlt. lia.
  - rewrite L2, L1. rewrite <- Zle_Qle. lia.
  - rewrite L3, L1. apply Qle_refl.
Qed.

Lemma orientation_tall :
  0 <= xr - xl < yb - yt -> (orientation_from_corners (upright_quad xl xr yt yb) == 90)%Q.
Proof.
  intros B. destruct upright_edge_lengths as (L0 & L1 & L2 & L3).
  unfold orientation_from_corners.
  change (map (edge_info (upright_quad xl xr yt yb)) (seq 0 4))
    with [edge_info (upright_quad xl xr yt yb) 0; edge_info (upright_quad xl xr yt yb) 1; edge_info (upright_quad xl xr yt yb) 2; edge_info (upright_quad xl xr yt yb) 3]%nat.
  cbv zeta.
  rewrite py_max_key_first.
  - cbn. rewrite Z.sub_diag. apply normalize_corner_angle_m90, (proj2 Ha). lia.
  - rewrite L0, L1. rewrite <- Zle_Qle. lia.
  - rewrite L2, L0. apply Qle_refl.
  - rewrite L3, L0. rewrite <- Zle_Qle. lia.
Qed.

End Upright.

(** The reference instance meets the contracts. *)
Lemma reference_upright_boxPoints : upright_boxPoints Reference.geometry.
Proof.
  intros cx cy w h. simpl. repeat split; reflexivity.
Qed.

Lemma reference_axis_norm : axis_norm Reference.geometry.
Proof.
  intros n. cbv [norm Reference.geometry Reference.norm_isqrt fst snd].
  replace (n * n + 0 * 0) with (Z.abs n * Z.abs n) by lia.
  replace (0 * 0 + n * n) with (Z.abs n * Z.abs n) by lia.
  rewrite Z.sqrt_square by lia. split; reflexivity.
Qed.


Lemma reference_axis_angles : axis_angles Reference.geometry.
Proof.
  split; intros v Hv; simpl; unfold Reference.arctan2_axes, Reference.degrees_f32.
  - simpl. destruct (Z.leb_spec 0 v); [reflexivity | lia].
  - destruct (Z.eqb_spec v 0); [lia |]. simpl.
    destruct (Z.ltb_spec 0 v); [lia | reflexivity].
Qed.


(** The orientation of an upright rectangle after [np.int0]: 0 degrees when
    the truncated horizontal side is the longer one, 90 degrees when the
    vertical one is. *)
Lemma orientation_of_upright (G : GeometryPrimitives) (cx cy w h : Q) :
  upright_boxPoints G -> axis_norm G -> axis_angles G ->
  let box_corners := np_int0 (boxPoints (mkRotatedRect (cx, cy) (w, h) 0)) in
  let dx := py_int (cx + w / 2) - py_int (cx - w / 2) in
  let dy := py_int (cy + h / 2) - py_int (cy - h / 2) in
  (0 <= dy < dx -> (orientation_from_corners box_corners == 0)%Q) /\
  (0 <= dx < dy -> (orientation_from_corners box_corners == 90)%Q).
Proof.
  intros Hb Hn Ha box_corners dx dy. subst box_corners dx dy.
  rewrite np_int0_upright by exact Hb.
  unfold np_int0, upright_corners, quad_map; simpl fst; simpl snd.
  split; intros B.
  - now apply orientation_wide.
  - now apply orientation_tall.
Qed.

(** C6: for an upright rectangle with fitted angle 0, wherever its centre
    is, [calculate_orientation] returns 0 degrees for width 100 and height
    50, and 90 degrees for width 50 and height 100. *)
Theorem calculate_orientation_axis_aligned (G : GeometryPrimitives) (cx cy : Q) :
  upright_boxPoints G -> axis_norm G -> axis_angles G ->
  (exists angle,
      calculate_orientation (Some (mkRotatedRect (cx, cy) (100, 50) 0)%Q) = Some angle /\
      (angle == 0)%Q) /\
  (exists angle,
      calculate_orientation (Some (mkRotatedRect (cx, cy) (50, 100) 0)%Q) = Some angle /\
      (angle == 90)%Q).
Proof.
  intros Hb Hn Ha.
  assert (S100 : forall c : Q, 99 <= py_int (c + 100 / 2) - py_int (c - 100 / 2) <= 101).
  { intros c. apply (py_int_shift _ _ 100). change (inject_Z 100) with 100%Q. field. }
  assert (S50 : forall c : Q, 49 <= py_int (c + 50 / 2) - py_int (c - 50 / 2) <= 51).
  { intros c. apply (py_int_shift _ _ 50). change (inject_Z 50) with 50%Q. field. }
  pose proof (S100 cx). pose proof (S100 cy). pose proof (S50 cx). pose proof (S50 cy).
  split; eexists; (split; [reflexivity |]).
  - apply (orientation_of_upright G cx cy 100 50 Hb Hn Ha). lia.
  - apply (orientation_of_upright G cx cy 50 100 Hb Hn Ha). lia.
Qed.

Lemma calculate_orientation_axis_aligned_witness :
  (exists angle,
      calculate_orientation (G := Reference.geometry)
        (Some (mkRotatedRect (100, 100) (100, 50) 0)%Q) = Some angle /\
      (angle == 0)%Q) /\
  (exists angle,
      calculate_orientation (G := Reference.geometry)
        (Some (mkRotatedRect (100, 100) (50, 100) 0)%Q) = Some angle /\
      (angle == 90)%Q).
Proof.
  apply (calculate_orientation_axis_aligned Reference.geometry 100 100).
  - exact reference_upright_boxPoints.
  - exact reference_axis_norm.
  - exact reference_axis_angles.
Defined.

(** X8: the two normalisations agree on every angle of absolute value at
    most 180 degrees: [90 - (x - 90)] is [180 - x], and the clamp is idle
    there. *)
Lemma normalizations_agree (angle : Q) :
  (Qabs angle <= 180)%Q ->
  (normalize_corner_angle angle == orientation_from_raw_angle angle)%Q.
Proof.
  intros B. unfold normalize_corner_angle, orientation_from_raw_angle, py_max2, py_min2.
  pose proof (Qabs_nonneg angle) as N.
  destruct (Qlt_le_dec angle 0) as [L | L].
  - pose proof (Qabs_neg angle (Qlt_le_weak _ _ L)) as A.
    split_Qltb; lra.
  - pose proof (Qabs_pos angle L) as A.
    split_Qltb; lra.
Qed.

(** C3: the primary path and the fallback formula are not equivalent: on
    the upright rectangle of width 50 and height 100 centred at (100, 100)
    the corner-based path
    gives 90 degrees and the fallback formula gives 0; and as functions of
    one number the two normalisations differ at 200, where the primary one
    clamps to 0 and the fallback one gives -20. *)
Theorem orientation_formulas_differ (G : GeometryPrimitives) :
  upright_boxPoints G -> axis_norm G -> axis_angles G ->
  (exists (r : RotatedRect) (box_corners : quad Point),
      get_box_corners (Some r) = Some box_corners /\
      ~ (orientation_from_corners box_corners == orientation_from_raw_angle (rawAngle r))%Q) /\
  (exists angle : Q,
      ~ (normalize_corner_angle angle == orientation_from_raw_angle angle)%Q).
Proof.
  intros Hb Hn Ha. split.
  - exists (mkRotatedRect (100, 100) (50, 100) 0)%Q,
      (np_int0 (boxPoints (mkRotatedRect (100, 100) (50, 100) 0)%Q)).
    split; [reflexivity |].
    pose proof (proj2 (orientation_of_upright G 100 100 50 100 Hb Hn Ha)) as A.
    cbv zeta in A. specialize (A ltac:(vm_compute; split; [discriminate | reflexivity])).
    intros E. rewrite A in E. discriminate E.
  - exists 200%Q. discriminate.
Qed.

Lemma orientation_formulas_differ_witness :
  (exists (r : RotatedRect) (box_corners : quad Point),
      get_box_corners (G := Reference.geometry) (Some r) = Some box_corners /\
      ~ (orientation_from_corners (G := Reference.geometry) box_corners
         == orientation_from_raw_angle (rawAngle r))%Q) /\
  (exists angle : Q,
      ~ (normalize_corner_angle angle == orientation_from_raw_angle angle)%Q).
Proof.
  apply (orientation_formulas_differ Reference.geometry).
  - exact reference_upright_boxPoints.
  - exact reference_axis_norm.
  - exact reference_axis_angles.
Defined.

(** ** The placement search *)

Lemma linspace_30_nth (start stop : Q) (i : nat) :
  (i < 30)%nat ->
  (nth i (linspace start stop 30) 0
   == start + inject_Z (Z.of_nat i) * ((stop - start) / 29))%Q.
Proof.
  intros H. unfold linspace.
  do 30 (destruct i as [| i];
         [cbn -[Qmult Qplus Qdiv Qminus]; unfold inject_Z; field |]).
  lia.
Qed.





(** C5: at [offset_percent = 0.01] the 30 ratios of the search are not in
    descending order: they start at 0.01, end at 0.05 and every one is
    greater than the one before, so the candidates are tried from the one
    nearest to the centre outwards, where the comment above the loop
    (lines 62-63) has the offset reduced. *)
Theorem placement_ratios_ascend :
  let ratios := linspace (1 # 100) (5 # 100) 30 in
  ~ descending ratios /\
  (nth 0 ratios 0 == 1 # 100)%Q /\
  (nth 29 ratios 0 == 5 # 100)%Q /\
  (forall i j, (i < j < 30)%nat -> (nth i ratios 0 < nth j ratios 0)%Q).
Proof.
  cbv zeta. split; [| split; [| split]].
  - intros D. specialize (D 0%nat 1%nat ltac:(simpl; lia)).
    vm_compute in D. exact (D eq_refl).
  - reflexivity.
  - reflexivity.
  - intros i j Hij. rewrite !linspace_30_nth by lia.
    assert (H : (inject_Z (Z.of_nat i) < inject_Z (Z.of_nat j))%Q)
      by (rewrite <- Zlt_Qlt; lia).
    setoid_replace (((5 # 100) - (1 # 100)) / 29)%Q with (4 # 2900)%Q by reflexivity.
    lra.
Qed.


(** ** The compositor *)

Import ProcessImage.

Lemma slice_bounds_inside (n s e : Z) :
  0 <= s <= e -> e <= n -> slice_bounds n s e = (s, e - s).
Proof.
  intros H1 H2. unfold slice_bounds, clip_index.
  destruct (Z.ltb_spec s 0), (Z.ltb_spec e 0); try lia.
  f_equal; lia.
Qed.

Lemma crop_inside {A : Type} (a : Raster A) (y1 y2 x1 x2 : Z) :
  0 <= y1 <= y2 -> y2 <= rows a -> 0 <= x1 <= x2 -> x2 <= cols a ->
  crop a y1 y2 x1 x2 =
  mkRaster (y2 - y1) (x2 - x1) (chans a) (fun y x c => pix a (y1 + y) (x1 + x) c).
Proof.
  intros. unfold crop. now rewrite !slice_bounds_inside by assumption.
Qed.

Lemma bidx_inside (m i : Z) : 0 <= i < m -> bidx m i = i.
Proof.
  intros H. unfold bidx. destruct (Z.eqb_spec m 1); lia.
Qed.

Lemma broadcast_dim_same (m : Z) : broadcast_dim m m = Some m.
Proof. unfold broadcast_dim. now rewrite Z.eqb_refl. Qed.

Lemma blend_alpha (roi sticker_roi : Image) :
  rows sticker_roi = rows roi -> cols sticker_roi = cols roi ->
  chans roi = 3 -> chans sticker_roi = 4 ->
  exists blended,
    blend roi sticker_roi = Some blended /\
    rows blended = rows roi /\ cols blended = cols roi /\ chans blended = 3 /\
    forall y x c,
      0 <= y < rows roi -> 0 <= x < cols roi -> 0 <= c < 3 ->
      pix blended y x c =
      blend_pixel (pix roi y x c) (pix sticker_roi y x c) (pix sticker_roi y x 3).
Proof.
  intros Hr Hc H3 H4.
  unfold blend, broadcast2, crop_chans, astype_float32, astype_uint8, raster_map.
  rewrite H4.
  cbn -[broadcast_dim Qmult Qplus Qminus Qdiv inject_Z to_uint8 bidx Z.add Z.sub].
  rewrite Hr, Hc, H3, !broadcast_dim_same.
  cbn -[Qmult Qplus Qminus Qdiv inject_Z to_uint8 bidx Z.add Z.sub].
  change (Z.max 0 (4 - 3)) with 1. change (Z.max 0 (3 - 0)) with 3.
  change (broadcast_dim 3 1) with (Some 3).
  cbn -[Qmult Qplus Qminus Qdiv inject_Z to_uint8 bidx Z.add Z.sub broadcast_dim].
  rewrite !broadcast_dim_same.
  eexists. split; [reflexivity |].
  cbn -[Qmult Qplus Qminus Qdiv inject_Z to_uint8 bidx Z.add Z.sub].
  repeat split.
  intros y x c Hy Hx Hc3.
  rewrite !(bidx_inside (rows roi)), !(bidx_inside (cols roi)), !(bidx_inside 3) by
    (rewrite ?bidx_inside; assumption).
  change (bidx 1 c) with 0. reflexivity.
Qed.

(** float32 holds every integer up to [2^24], and so every byte. *)
Lemma float32_Z (n : Z) : Z.abs n <= 2 ^ 24 -> (float32 (inject_Z n) == inject_Z n)%Q.
Proof. intros H. apply round_float_Z; [lia | exact H]. Qed.

Lemma float32_byte (n : Z) : 0 <= n < 256 -> (float32 (inject_Z n) == inject_Z n)%Q.
Proof. intros H. apply float32_Z. change (2 ^ 24) with 16777216. lia. Qed.

(** At the two ends of the alpha range every operation of the blend is
    exact: [255 / 255 = 1], [1 - 1 = 0], and products with 0 and 1. *)
Lemma blend_pixel_opaque (p s : Z) : 0 <= s < 256 -> blend_pixel p s 255 = s.
Proof.
  intros H. unfold blend_pixel, to_uint8. cbv zeta.
  assert (A : (float32 (inject_Z 255 / 255) == 1)%Q) by (vm_compute; reflexivity).
  assert (B : (float32 0 == 0)%Q) by reflexivity.
  rewrite A.
  setoid_replace (1 - 1)%Q with 0%Q by ring. rewrite ?B.
  setoid_replace (inject_Z p * 0)%Q with 0%Q by ring. rewrite ?B.
  setoid_replace (inject_Z s * 1)%Q with (inject_Z s) by ring.
  rewrite (float32_byte s H).
  setoid_replace (0 + inject_Z s)%Q with (inject_Z s) by ring.
  rewrite (float32_byte s H).
  rewrite py_int_inject_Z. now apply Z.mod_small.
Qed.

Lemma blend_pixel_transparent (p s : Z) : 0 <= p < 256 -> blend_pixel p s 0 = p.
Proof.
  intros H. unfold blend_pixel, to_uint8. cbv zeta.
  assert (A : (float32 (inject_Z 0 / 255) == 0)%Q) by reflexivity.
  assert (B : (float32 0 == 0)%Q) by reflexivity.
  assert (C : (float32 1 == 1)%Q) by (vm_compute; reflexivity).
  rewrite A.
  setoid_replace (1 - 0)%Q with 1%Q by ring. rewrite ?C.
  setoid_replace (inject_Z p * 1)%Q with (inject_Z p) by ring.
  rewrite (float32_byte p H).
  setoid_replace (inject_Z s * 0)%Q with 0%Q by ring. rewrite ?B.
  setoid_replace (inject_Z p + 0)%Q with (inject_Z p) by ring.
  rewrite (float32_byte p H).
  rewrite py_int_inject_Z. now apply Z.mod_small.
Qed.

(** The two ways through [place_sticker]: the early return, where no canvas
    pixel lies under the sticker, and the write of the clipped region. *)
Ltac early_return Early :=
  eexists; repeat split; try reflexivity;
  intros O; exfalso;
  rewrite !orb_true_iff, !Z.ltb_lt, !Z.leb_le in Early; lia.

Ltac region_pixels :=
  repeat split; auto;
  [ intros [[? ?] [? ?]] ?;
    match goal with
    | |- context [if ?b then _ else _] =>
        let In := fresh "In" in
        destruct b eqn:In;
        [ rewrite !bidx_inside by lia
        | rewrite !andb_false_iff, !Z.leb_gt, !Z.ltb_ge in In; lia ]
    end
  | intros N;
    match goal with
    | |- context [if ?b then _ else _] =>
        let In := fresh "In" in
        destruct b eqn:In; [| reflexivity];
        rewrite !andb_true_iff, !Z.leb_le, !Z.ltb_lt in In;
        exfalso; apply N; lia
    end ].

(** The canvas after a sticker with an alpha channel is placed: blended
    under the sticker, untouched elsewhere. *)
Lemma place_sticker_alpha (image sticker : Image) (position : Point) :
  shaped image -> shaped sticker ->
  chans image = 3 -> chans sticker = 4 ->
  exists image',
    place_sticker image sticker position = Some image' /\
    rows image' = rows image /\ cols image' = cols image /\
    chans image' = chans image /\
    forall Y X c,
      (overlaps image sticker position Y X -> 0 <= c < 3 ->
       pix image' Y X c =
       blend_pixel (pix image Y X c) (sticker_at sticker position Y X c)
                   (sticker_at sticker position Y X 3)) /\
      (~ (overlaps image sticker position Y X /\ 0 <= c < 3) ->
       pix image' Y X c = pix image Y X c).
Proof.
  intros (Hih & Hiw & _) (Hsh & Hsw & _) H3 H4.
  unfold place_sticker, overlaps, sticker_at, placement.
  destruct position as [sx sy].
  set (x1 := sx - cols sticker / 2). set (y1 := sy - rows sticker / 2).
  destruct ((x1 + cols sticker <? 0) || (y1 + rows sticker <? 0)
            || (cols image <=? x1) || (rows image <=? y1)) eqn:Early.
  - early_return Early.
  - rewrite !orb_false_iff, !Z.ltb_ge, !Z.leb_gt in Early.
    destruct Early as [[[E1 E2] E3] E4].
    set (ry1 := Z.max 0 y1). set (ry2 := Z.min (rows image) (y1 + rows sticker)).
    set (rx1 := Z.max 0 x1). set (rx2 := Z.min (cols image) (x1 + cols sticker)).
    rewrite (crop_inside image), (crop_inside sticker) by lia.
    cbn [chans]. rewrite H4. cbn [Z.eqb Pos.eqb].
    match goal with
    | |- context [blend ?r ?s] =>
        destruct (blend_alpha r s) as (blended & -> & Br & Bc & Bk & Bp);
        [cbn [rows]; lia | cbn [cols]; lia | exact H3 | reflexivity |]
    end.
    cbn [rows cols pix] in Br, Bc, Bp.
    unfold assign_region. rewrite !slice_bounds_inside by lia.
    rewrite Br, Bc, Bk, H3. unfold fits. rewrite !Z.eqb_refl. cbn [orb andb].
    eexists. split; [reflexivity |]. cbn [rows cols chans pix].
    region_pixels. rewrite Bp by lia. f_equal; f_equal; lia.
Qed.

(** The canvas after a sticker without alpha channel is placed. *)
Lemma place_sticker_rgb (image sticker : Image) (position : Point) :
  shaped image -> shaped sticker ->
  chans image = 3 -> chans sticker = 3 ->
  exists image',
    place_sticker image sticker position = Some image' /\
    rows image' = rows image /\ cols image' = cols image /\
    chans image' = chans image /\
    forall Y X c,
      (overlaps image sticker position Y X -> 0 <= c < 3 ->
       pix image' Y X c = sticker_at sticker position Y X c) /\
      (~ (overlaps image sticker position Y X /\ 0 <= c < 3) ->
       pix image' Y X c = pix image Y X c).
Proof.
  intros (Hih & Hiw & _) (Hsh & Hsw & _) H3 H4.
  unfold place_sticker, overlaps, sticker_at, placement.
  destruct position as [sx sy].
  set (x1 := sx - cols sticker / 2). set (y1 := sy - rows sticker / 2).
  destruct ((x1 + cols sticker <? 0) || (y1 + rows sticker <? 0)
            || (cols image <=? x1) || (rows image <=? y1)) eqn:Early.
  - early_return Early.
  - rewrite !orb_false_iff, !Z.ltb_ge, !Z.leb_gt in Early.
    destruct Early as [[[E1 E2] E3] E4].
    set (ry1 := Z.max 0 y1). set (ry2 := Z.min (rows image) (y1 + rows sticker)).
    set (rx1 := Z.max 0 x1). set (rx2 := Z.min (cols image) (x1 + cols sticker)).
    rewrite (crop_inside sticker) by lia.
    cbn [chans]. rewrite H4. cbn [Z.eqb Pos.eqb].
    unfold assign_region. rewrite !slice_bounds_inside by lia.
    cbn [rows cols chans pix]. rewrite H3. unfold fits.
    replace (Z.max 0 (- y1) + (ry2 - ry1) - Z.max 0 (- y1)) with (ry2 - ry1) by lia.
    replace (Z.max 0 (- x1) + (rx2 - rx1) - Z.max 0 (- x1)) with (rx2 - rx1) by lia.
    rewrite !Z.eqb_refl. cbn [orb andb].
    eexists. split; [reflexivity |]. cbn [rows cols chans pix].
    region_pixels. f_equal; lia.
Qed.

(** With a readable sticker file that resizing accepts, the result is the
    placement of the prepared sticker. *)
Lemma overlay_sticker_image_loaded (I : ImagePrimitives)
    (image sticker0 sticker : Image)
    (sticker_path : string) (position : Point) (angle : option Q) (scale : Q) :
  path_exists sticker_path = true -> imread sticker_path = Some sticker0 ->
  prepare_sticker sticker0 angle scale = Some sticker ->
  overlay_sticker_image image sticker_path (Some position) angle scale =
  place_sticker image sticker position.
Proof.
  intros He Hr Hp. unfold overlay_sticker_image. now rewrite He, Hr, Hp.
Qed.

(** C7: where the sticker covers the canvas, compositing a sticker whose
    alpha channel is 255 everywhere makes every covered canvas pixel equal
    to the sticker's colour pixel above it, and compositing a sticker whose
    alpha channel is 0 everywhere leaves every canvas pixel as it was. *)
Theorem overlay_alpha_extremes (I : ImagePrimitives)
    (image sticker0 sticker : Image)
    (sticker_path : string) (position : Point) (angle : option Q) (scale : Q) :
  path_exists sticker_path = true -> imread sticker_path = Some sticker0 ->
  prepare_sticker sticker0 angle scale = Some sticker ->
  shaped image -> bytes image -> chans image = 3 ->
  shaped sticker -> bytes sticker -> chans sticker = 4 ->
  ((forall y x, 0 <= y < rows sticker -> 0 <= x < cols sticker ->
                pix sticker y x 3 = 255) ->
   exists image',
     overlay_sticker_image image sticker_path (Some position) angle scale
     = Some image' /\
     forall Y X c,
       overlaps image sticker position Y X -> 0 <= c < 3 ->
       pix image' Y X c = sticker_at sticker position Y X c) /\
  ((forall y x, 0 <= y < rows sticker -> 0 <= x < cols sticker ->
                pix sticker y x 3 = 0) ->
   exists image',
     overlay_sticker_image image sticker_path (Some position) angle scale
     = Some image' /\
     same_image image' image).
Proof.
  intros He Hr Hp Si Bi Ci Ss Bs Cs.
  rewrite (overlay_sticker_image_loaded I image sticker0 sticker) by assumption.
  destruct (place_sticker_alpha image sticker position Si Ss Ci Cs)
    as (image' & -> & Hrows & Hcols & Hchans & Hpix).
  assert (In : forall Y X, overlaps image sticker position Y X ->
               let '(x1, y1, _, _) := placement sticker position in
               0 <= Y - y1 < rows sticker /\ 0 <= X - x1 < cols sticker).
  { intros Y X. unfold overlaps, placement. destruct position as [sx sy]. lia. }
  split; intros Ha; exists image'; (split; [reflexivity |]).
  - intros Y X c O Hc. specialize (In Y X O).
    rewrite (proj1 (Hpix Y X c) O Hc).
    unfold sticker_at in *. destruct (placement sticker position) as [[[x1 y1] x2] y2].
    rewrite (Ha (Y - y1) (X - x1)) by lia.
    apply blend_pixel_opaque, Bs; lia.
  - repeat split; auto. intros Y X c.
    destruct (Z_le_dec 0 Y), (Z_lt_dec Y (rows image)),
      (Z_le_dec 0 X), (Z_lt_dec X (cols image)),
      (Z_le_dec 0 c), (Z_lt_dec c 3);
      try (apply (proj2 (Hpix Y X c)); unfold overlaps;
           destruct (placement sticker position) as [[[x1 y1] x2] y2]; lia).
    destruct (placement sticker position) as [[[x1 y1] x2] y2] eqn:P.
    destruct (Z_le_dec y1 Y), (Z_lt_dec Y y2), (Z_le_dec x1 X), (Z_lt_dec X x2);
      try (apply (proj2 (Hpix Y X c)); unfold overlaps; rewrite P; lia).
    assert (O : overlaps image sticker position Y X) by (unfold overlaps; rewrite P; lia).
    specialize (In Y X O).
    rewrite (proj1 (Hpix Y X c) O) by lia.
    unfold sticker_at. rewrite P.
    rewrite (Ha (Y - y1) (X - x1)) by lia.
    apply blend_pixel_transparent, Bi; lia.
Qed.

(** C8: when no canvas pixel lies under the sticker centred at the
    position, [overlay_sticker_image] returns the canvas with every pixel
    unchanged. *)
Theorem overlay_outside_unchanged (I : ImagePrimitives)
    (image sticker0 sticker : Image)
    (sticker_path : string) (position : Point) (angle : option Q) (scale : Q) :
  path_exists sticker_path = true -> imread sticker_path = Some sticker0 ->
  prepare_sticker sticker0 angle scale = Some sticker ->
  shaped image -> chans image = 3 ->
  shaped sticker -> chans sticker = 3 \/ chans sticker = 4 ->
  (forall Y X, ~ overlaps image sticker position Y X) ->
  exists image',
    overlay_sticker_image image sticker_path (Some position) angle scale
    = Some image' /\
    same_image image' image.
Proof.
  intros He Hr Hp Si Ci Ss Cs Out.
  rewrite (overlay_sticker_image_loaded I image sticker0 sticker) by assumption.
  destruct Cs as [Cs | Cs].
  - destruct (place_sticker_rgb image sticker position Si Ss Ci Cs)
      as (image' & -> & Hrows & Hcols & Hchans & Hpix).
    exists image'. split; [reflexivity |]. repeat split; auto.
    intros Y X c. apply (proj2 (Hpix Y X c)). intros [O _]. exact (Out Y X O).
  - destruct (place_sticker_alpha image sticker position Si Ss Ci Cs)
      as (image' & -> & Hrows & Hcols & Hchans & Hpix).
    exists image'. split; [reflexivity |]. repeat split; auto.
    intros Y X c. apply (proj2 (Hpix Y X c)). intros [O _]. exact (Out Y X O).
Qed.

Lemma reference_canvas_shaped : shaped Reference.canvas.
Proof. unfold shaped; simpl; lia. Qed.

Lemma reference_canvas_bytes : bytes Reference.canvas.
Proof.
  intros y x c. unfold Reference.canvas. cbn [rows cols chans pix]. lia.
Qed.

Lemma reference_sticker_shaped (v a : Z) : shaped (Reference.flat_sticker v a).
Proof. unfold shaped; simpl; lia. Qed.

Lemma reference_sticker_bytes (v a : Z) :
  0 <= v < 256 -> 0 <= a < 256 -> bytes (Reference.flat_sticker v a).
Proof. intros Hv Ha y x c _ _ _; simpl. destruct (c =? 3); assumption. Qed.

Lemma overlay_alpha_extremes_witness :
  (exists image',
      overlay_sticker_image (I := Reference.images (Reference.flat_sticker 7 255))
        Reference.canvas "sticker.png" (Some (1, 1)) None 1 = Some image' /\
      forall Y X c,
        overlaps Reference.canvas (Reference.flat_sticker 7 255) (1, 1) Y X ->
        0 <= c < 3 ->
        pix image' Y X c = sticker_at (Reference.flat_sticker 7 255) (1, 1) Y X c) /\
  (exists image',
      overlay_sticker_image (I := Reference.images (Reference.flat_sticker 7 0))
        Reference.canvas "sticker.png" (Some (1, 1)) None 1 = Some image' /\
      same_image image' Reference.canvas).
Proof.
  split.
  - apply (proj1 (overlay_alpha_extremes
                    (Reference.images (Reference.flat_sticker 7 255))
                    Reference.canvas (Reference.flat_sticker 7 255) (Reference.flat_sticker 7 255)
                    "sticker.png" (1, 1) None 1
                    eq_refl eq_refl eq_refl
                    reference_canvas_shaped reference_canvas_bytes eq_refl
                    (reference_sticker_shaped 7 255)
                    (reference_sticker_bytes 7 255 ltac:(lia) ltac:(lia))
                    eq_refl)).
    intros y x _ _. reflexivity.
  - apply (proj2 (overlay_alpha_extremes
                    (Reference.images (Reference.flat_sticker 7 0))
                    Reference.canvas (Reference.flat_sticker 7 0) (Reference.flat_sticker 7 0)
                    "sticker.png" (1, 1) None 1
                    eq_refl eq_refl eq_refl
                    reference_canvas_shaped reference_canvas_bytes eq_refl
                    (reference_sticker_shaped 7 0)
                    (reference_sticker_bytes 7 0 ltac:(lia) ltac:(lia))
                    eq_refl)).
    intros y x _ _. reflexivity.
Defined.

Lemma overlay_outside_unchanged_witness :
  (forall Y X, ~ overlaps Reference.canvas (Reference.flat_sticker 7 255) (-1, 1) Y X) /\
  exists image',
    overlay_sticker_image (I := Reference.images (Reference.flat_sticker 7 255))
      Reference.canvas "sticker.png" (Some (-1, 1)) None 1 = Some image' /\
    same_image image' Reference.canvas.
Proof.
  assert (Out : forall Y X,
             ~ overlaps Reference.canvas (Reference.flat_sticker 7 255) (-1, 1) Y X).
  { intros Y X. unfold overlaps; simpl. lia. }
  split; [exact Out |].
  apply (overlay_outside_unchanged
           (Reference.images (Reference.flat_sticker 7 255))
           Reference.canvas (Reference.flat_sticker 7 255) (Reference.flat_sticker 7 255)
           "sticker.png" (-1, 1) None 1
           eq_refl eq_refl eq_refl reference_canvas_shaped eq_refl
           (reference_sticker_shaped 7 255) (or_intror eq_refl) Out).
Defined.

(** ** Worked examples on the exact instances *)

(** With the default offset of 25% the square of size 80 at (100, 100)
    gets its sticker a quarter of the way to the corner (60, 60). *)
Example square_default_offset :
  calculate_sticker_position (G := Reference.geometry)
    (Some (mkRotatedRect (100, 100) (80, 80) 0)%Q) (1 # 4) = Some (90, 90).
Proof. reflexivity. Qed.

(** A rectangle of size zero has all its corners on the truncated centre,
    which is returned. *)
Example degenerate_box_center :
  calculate_sticker_position (G := Reference.geometry)
    (Some (mkRotatedRect (107 # 10, 202 # 10) (0, 0) 0)%Q) (1 # 4) = Some (10, 20).
Proof. reflexivity. Qed.

(** Five samples from 1 down to 0. *)
Example linspace_5 :
  map Qred (linspace 1 0 5) = [1; 3 # 4; 1 # 2; 1 # 4; 0]%Q.
Proof. reflexivity. Qed.

(** Sorting by descending key keeps the order of equal keys. *)
Example sorted_reverse_stable :
  map fst (sorted_reverse (fun p : Z * Q => snd p)
             [(1, 5%Q); (2, 9%Q); (3, 5%Q); (4, 9%Q)]) = [2; 4; 1; 3].
Proof. reflexivity. Qed.

(** Faces on the square: 'left' moves the centre left, anything unknown
    moves it up. *)
Example on_face_left_and_unknown :
  calculate_sticker_position_on_face
    (Some (mkRotatedRect (100, 100) (80, 40) 0)%Q) "left" (1 # 10) = Some (92, 100) /\
  calculate_sticker_position_on_face
    (Some (mkRotatedRect (100, 100) (80, 40) 0)%Q) "front" (1 # 10) = Some (100, 92).
Proof. split; reflexivity. Qed.

(** An opaque 2x2 sticker of value 7 centred at (1, 1) covers the four
    top-left canvas pixels and leaves the others. *)
Example overlay_opaque_pixels :
  match overlay_sticker_image (I := Reference.images (Reference.flat_sticker 7 255))
          Reference.canvas "sticker.png" (Some (1, 1)) None 1 with
  | Some image' =>
      pix image' 0 0 0 = 7 /\ pix image' 1 1 2 = 7 /\
      pix image' 2 1 0 = pix Reference.canvas 2 1 0
  | None => False
  end.
Proof. vm_compute. repeat split. Qed.

(** A half-transparent sticker blends: 128/255 of 200 over the canvas byte
    20 gives 110 after truncation. *)
Example blend_pixel_half : blend_pixel 20 200 128 = 110.
Proof. vm_compute. reflexivity. Qed.

(** The float32 blend of 6 with 6 at alpha 65 is 5.9999995, and 5 after
    truncation. *)
Example blend_pixel_below : blend_pixel 6 6 65 = 5.
Proof. vm_compute. reflexivity. Qed.

(** With the centre (100, 100) and the anchor corner (0, 0), at the ratio
    0.6 (the double nearest to it) float32 gives 100 - 60.000004 =
    39.999996 and the candidate (39, 39), where the exact sum is just above
    40. *)
Example candidate_float32 :
  let ratio := (5404319552844595 # 9007199254740992)%Q in
  candidate_pt (100, 100) (-100, -100) ratio = (39, 39) /\
  py_int (100 + inject_Z (-100) * ratio) = 40.
Proof. vm_compute. split; reflexivity. Qed.

(** The float64 product of 10 and 0.7 (the double nearest to it) is 7.0,
    where the exact product is just below 7: the offset is 7 pixels. *)
Example on_face_float64 :
  let offset_percent := (3152519739159347 # 4503599627370496)%Q in
  calculate_sticker_position_on_face
    (Some (mkRotatedRect (100, 100) (10, 5) 0)%Q) "top" offset_percent
  = Some (100, 93) /\
  py_int (10 * offset_percent) = 6.
Proof. vm_compute. split; reflexivity. Qed.

(** A 2x2 sticker at scale 0.3 has the target size (0, 0), on which
    resizing raises. *)
Example overlay_resize_raises :
  overlay_sticker_image (I := Reference.images (Reference.flat_sticker 7 255))
    Reference.canvas "sticker.png" (Some (1, 1)) None (3 # 10) = None.
Proof. vm_compute. reflexivity. Qed.

(** * Further properties *)

(** ** Truncation *)

Lemma py_int_ge (n : Z) (q : Q) : (inject_Z n <= q)%Q -> n <= py_int q.
Proof.
  intros H. destruct (py_int_bounds q) as [_ U].
  assert (L : (inject_Z n < inject_Z (py_int q + 1))%Q).
  { rewrite inject_Z_plus. change (inject_Z 1) with 1%Q. lra. }
  rewrite <- Zlt_Qlt in L. lia.
Qed.

Lemma py_int_le (m : Z) (q : Q) : (q <= inject_Z m)%Q -> py_int q <= m.
Proof.
  intros H. destruct (py_int_bounds q) as [L _].
  assert (U : (inject_Z (py_int q + -1) < inject_Z m)%Q).
  { rewrite inject_Z_plus. change (inject_Z (-1)) with (-1)%Q. lra. }
  rewrite <- Zlt_Qlt in U. lia.
Qed.

(** Truncation goes toward zero. *)
Lemma py_int_toward_zero (q : Q) :
  ((0 <= q)%Q -> 0 <= py_int q /\ (inject_Z (py_int q) <= q)%Q) /\
  ((q <= 0)%Q -> py_int q <= 0 /\ (q <= inject_Z (py_int q))%Q).
Proof.
  unfold py_int, Qle, inject_Z. destruct q as [n d]; simpl.
  pose proof (Z.quot_rem' n (Zpos d)) as E.
  pose proof (Z.rem_bound_abs n (Zpos d) ltac:(lia)) as B.
  split; intros H.
  - assert (0 <= n) by lia.
    pose proof (Z.rem_nonneg n (Zpos d) ltac:(lia) ltac:(lia)).
    pose proof (Z.quot_pos n (Zpos d) ltac:(lia) ltac:(lia)).
    generalize dependent (Z.rem n (Zpos d)). generalize dependent (n ÷ Zpos d).
    intros t Ht r E B Hr. split; [lia |]. subst n. lia.
  - assert (n <= 0) by lia.
    pose proof (Z.rem_nonpos n (Zpos d) ltac:(lia) ltac:(lia)).
    assert (n ÷ Zpos d <= 0).
    { rewrite <- (Z.opp_involutive n), Z.quot_opp_l by lia.
      pose proof (Z.quot_pos (- n) (Zpos d) ltac:(lia) ltac:(lia)). lia. }
    generalize dependent (Z.rem n (Zpos d)). generalize dependent (n ÷ Zpos d).
    intros t Ht r E B Hr. split; [lia |]. subst n. lia.
Qed.

Lemma py_int_truncated (q : Q) : truncated q (py_int q).
Proof.
  unfold truncated. destruct (py_int_bounds q) as [L U].
  destruct (py_int_toward_zero q) as [P N].
  split.
  - apply Qabs_Qlt_condition. split; lra.
  - destruct (Qlt_le_dec q 0) as [S | S].
    + destruct (N (Qlt_le_weak _ _ S)) as [Z1 Z2].
      rewrite (Qabs_neg q) by lra. rewrite Qabs_neg; [lra |].
      change 0%Q with (inject_Z 0). now rewrite <- Zle_Qle.
    + destruct (P S) as [Z1 Z2].
      rewrite (Qabs_pos q) by lra. rewrite Qabs_pos; [lra |].
      change 0%Q with (inject_Z 0). now rewrite <- Zle_Qle.
Qed.

(** X4: [get_box_center] and [get_box_corners] truncate: every integer
    coordinate they return is less than one pixel from the float it comes
    from, and no farther from zero. *)
Theorem box_center_and_corners_truncated (G : GeometryPrimitives) (r : RotatedRect) :
  (exists cx cy,
      get_box_center (Some r) = Some (cx, cy) /\
      truncated (fst (center r)) cx /\ truncated (snd (center r)) cy) /\
  (exists box_corners,
      get_box_corners (Some r) = Some box_corners /\
      forall i, (i < 4)%nat ->
        truncated (fst (corner (boxPoints r) i)) (fst (corner box_corners i)) /\
        truncated (snd (corner (boxPoints r) i)) (snd (corner box_corners i))).
Proof.
  split.
  - unfold get_box_center. destruct (center r) as [cx cy].
    exists (py_int cx), (py_int cy). repeat split; apply py_int_truncated.
  - exists (np_int0 (boxPoints r)). split; [reflexivity |].
    destruct (boxPoints r) as [[[p0 p1] p2] p3].
    intros i Hi. do 4 (destruct i as [| i]; [split; apply py_int_truncated |]). lia.
Qed.

(** ** The anchor corner *)

(** X9: the anchor corner is one of the four corners, none of the four has
    a smaller y, and every corner listed before it has a greater y. *)
Theorem top_corner_least_y (corners : quad Point) :
  exists i, (i < 4)%nat /\
    top_corner corners = corner corners i /\
    (forall j, (j < 4)%nat -> snd (corner corners i) <= snd (corner corners j)) /\
    (forall j, (j < i)%nat -> snd (corner corners i) < snd (corner corners j)).
Proof.
  destruct corners as [[[[x0 y0] [x1 y1]] [x2 y2]] [x3 y3]].
  unfold top_corner, argmin. cbn [quad_list map snd argmin_from].
  repeat match goal with
         | |- context [?a <? ?b] => destruct (Z.ltb_spec a b)
         end;
    match goal with
    | |- context [corner _ ?k = _] => exists k
    end;
    (split; [lia |]); (split; [reflexivity |]);
    split; intros j Hj; do 4 (destruct j as [| j]; [simpl; lia |]); lia.
Qed.

(** ** The longest edge *)

Lemma fold_max_spec {A : Type} (key : A -> Q) (xs : list A) (best : A) :
  let r := fold_left (fun b y => if Qltb (key b) (key y) then y else b) xs best in
  (r = best \/ In r xs) /\ (key best <= key r)%Q /\
  forall x, In x xs -> (key x <= key r)%Q.
Proof.
  revert best. induction xs as [| y xs IH]; intros best; simpl.
  - repeat split; auto; [apply Qle_refl | contradiction].
  - destruct (Qltb (key best) (key y)) eqn:E.
    + apply Qltb_true_iff in E.
      destruct (IH y) as (M & L & U). repeat split.
      * destruct M as [-> | M]; auto.
      * lra.
      * intros x [<- | Hx]; auto.
    + apply Qltb_false_iff in E.
      destruct (IH best) as (M & L & U). repeat split.
      * destruct M as [-> | M]; auto.
      * exact L.
      * intros x [<- | Hx]; [lra | auto].
Qed.

Lemma py_max_key_spec {A : Type} (key : A -> Q) (l : list A) (d : A) :
  l <> [] ->
  In (py_max_key key l d) l /\
  forall x, In x l -> (key x <= key (py_max_key key l d))%Q.
Proof.
  destruct l as [| x xs]; [congruence |]. intros _. unfold py_max_key.
  destruct (fold_max_spec key xs x) as (M & L & U). split.
  - destruct M as [-> | M]; [now left | now right].
  - intros y [<- | Hy]; auto.
Qed.

(** X5: the corner-based orientation is the normalised angle of one of the
    four edges, and no edge is longer than that one. *)
Theorem orientation_from_longest_edge (G : GeometryPrimitives) (corners : quad Point) :
  exists i, (i < 4)%nat /\
    let '(edge_vec, edge_length, _) := edge_info corners i in
    (forall j, (j < 4)%nat -> (snd (fst (edge_info corners j)) <= edge_length)%Q) /\
    orientation_from_corners corners =
    normalize_corner_angle (degrees (arctan2 (snd edge_vec) (fst edge_vec))).
Proof.
  unfold orientation_from_corners.
  set (edges := map (edge_info corners) (seq 0 4)).
  destruct (py_max_key_spec (fun x => snd (fst x)) edges (0, 0, 0%Q, O)) as [M U];
    [discriminate |].
  apply in_map_iff in M. destruct M as (i & E & Hi).
  apply in_seq in Hi. exists i. split; [lia |].
  cbv zeta. rewrite <- E in *. 
  destruct (edge_info corners i) as [[edge_vec edge_length] k] eqn:Ei.
  split; [| reflexivity].
  intros j Hj. apply (U (edge_info corners j)).
  apply in_map, in_seq. lia.
Qed.

(** ** The two normalisations *)

(** X6: the normalisation of the primary path gives the same angle for an
    angle and its opposite, and for an angle between 0 and 180 and the angle
    of the antiparallel edge, 180 degrees less. *)
Theorem normalize_corner_angle_symmetry :
  (forall angle, (normalize_corner_angle (- angle) == normalize_corner_angle angle)%Q) /\
  (forall angle, (0 <= angle <= 180)%Q ->
     (normalize_corner_angle (angle - 180) == normalize_corner_angle angle)%Q).
Proof.
  split.
  - intros a. unfold normalize_corner_angle, py_max2, py_min2.
    pose proof (Qabs_opp a) as O.
    destruct (Qlt_le_dec a 0) as [L | L].
    + pose proof (Qabs_neg a (Qlt_le_weak _ _ L)) as A. split_Qltb; lra.
    + pose proof (Qabs_pos a L) as A. split_Qltb; lra.
  - intros a [L U]. unfold normalize_corner_angle, py_max2, py_min2.
    pose proof (Qabs_neg (a - 180) ltac:(lra)) as A.
    pose proof (Qabs_pos a L) as A'.
    split_Qltb; lra.
Qed.

(** X7: the fallback formula lands in [0, 90] exactly for the fitted angles
    of absolute value at most 180; beyond, it is negative. *)
Theorem orientation_from_raw_angle_range (angle : Q) :
  (Qabs angle <= 180)%Q <->
  (0 <= orientation_from_raw_angle angle <= 90)%Q.
Proof.
  unfold orientation_from_raw_angle.
  pose proof (Qabs_nonneg angle) as N.
  split_Qltb; split; intros H; try split; lra.
Qed.

Lemma normalizations_agree_witness :
  (Qabs 120 <= 180)%Q /\
  (normalize_corner_angle 120 == orientation_from_raw_angle 120)%Q.
Proof.
  split.
  - discriminate.
  - apply (normalizations_agree 120). discriminate.
Defined.

(** ** Which contour is returned *)

Lemma find_box_contour_find (C : ContourPrimitives) (edges : Image) :
  findContours edges <> [] ->
  find_box_contour edges =
  match find is_box (sorted_reverse contourArea (findContours edges)) with
  | Some c => Some c
  | None => hd_error (sorted_reverse contourArea (findContours edges))
  end.
Proof.
  unfold find_box_contour.
  destruct (findContours edges) as [| c0 l] eqn:E; [congruence |]. intros _.
  now rewrite first_box_find.
Qed.

(** In a list sorted by descending key, the first element passing a test
    has the greatest key of those passing it. *)
Lemma find_sorted_greatest {A : Type} (key : A -> Q) (f : A -> bool)
    (l : list A) (x : A) :
  StronglySorted (key_ge key) l -> find f l = Some x ->
  forall y, In y l -> f y = true -> (key y <= key x)%Q.
Proof.
  induction 1 as [| z l Hs IH Hz]; simpl; [discriminate |].
  destruct (f z) eqn:Fz.
  - intros [= <-] y [<- | Hy] _; [apply Qle_refl |].
    rewrite Forall_forall in Hz. now apply Hz.
  - intros Fx y [<- | Hy] Fy; [congruence | now apply IH].
Qed.

Lemma find_box_contour_In (C : ContourPrimitives) (edges : Image) (result : Contour) :
  find_box_contour edges = Some result -> In result (findContours edges).
Proof.
  intros H.
  pose proof (sorted_reverse_perm contourArea (findContours edges)) as P.
  destruct (findContours edges) as [| c0 l] eqn:E;
    [unfold find_box_contour in H; rewrite E in H; discriminate H |].
  rewrite <- E in *. rewrite find_box_contour_find in H by (rewrite E; discriminate).
  apply (Permutation_in _ (Permutation_sym P)).
  destruct (find is_box _) as [c |] eqn:Fi.
  - injection H as <-. now apply find_some in Fi.
  - destruct (sorted_reverse contourArea (findContours edges)); [discriminate H |].
    injection H as <-. now left.
Qed.

Lemma find_box_contour_None (C : ContourPrimitives) (edges : Image) :
  find_box_contour edges = None <-> findContours edges = [].
Proof.
  split.
  - intros H. destruct (findContours edges) as [| c0 l] eqn:E; [reflexivity |].
    rewrite find_box_contour_find in H by (rewrite E; discriminate).
    pose proof (sorted_reverse_perm contourArea (findContours edges)) as P.
    destruct (find is_box _); [discriminate H |].
    destruct (sorted_reverse contourArea (findContours edges)); [| discriminate H].
    apply Permutation_sym, Permutation_nil in P. congruence.
  - intros E. unfold find_box_contour. now rewrite E.
Qed.

(** X1: the contour returned is one of the contours found; and when some
    contour found passes the box test, the one returned passes it too and no
    contour passing it has a greater area. *)
Theorem find_box_contour_largest_box (C : ContourPrimitives) (edges : Image) :
  (forall result,
      find_box_contour edges = Some result -> In result (findContours edges)) /\
  (forall c,
      In c (findContours edges) -> is_box c = true ->
      exists result,
        find_box_contour edges = Some result /\
        is_box result = true /\
        (contourArea c <= contourArea result)%Q).
Proof.
  pose proof (sorted_reverse_perm contourArea (findContours edges)) as P.
  pose proof (sorted_reverse_sorted contourArea (findContours edges)) as S.
  split.
  - apply find_box_contour_In.
  - intros c Hc Bc.
    rewrite find_box_contour_find by (intros N; rewrite N in Hc; contradiction).
    apply (Permutation_in _ P) in Hc.
    destruct (find is_box _) as [x |] eqn:Fi.
    + exists x. split; [reflexivity |]. split.
      * now apply find_some in Fi.
      * now apply (find_sorted_greatest contourArea is_box _ x S Fi).
    + apply find_none with (x := c) in Fi; [congruence | exact Hc].
Qed.

(** Sorting is stable: the elements with one key value keep their order. *)
Lemma insert_desc_filter {A : Type} (key : A -> Q) (k : Q) (x : A) (l : list A) :
  filter (fun y => Qeq_bool (key y) k) (insert_desc key x l) =
  filter (fun y => Qeq_bool (key y) k) (x :: l).
Proof.
  induction l as [| y l IH]; [reflexivity |].
  cbn [insert_desc]. destruct (Qle_bool (key y) (key x)) eqn:E; [reflexivity |].
  cbn [filter] in *. rewrite IH.
  destruct (Qeq_bool (key x) k) eqn:Ex, (Qeq_bool (key y) k) eqn:Ey; try reflexivity.
  apply Qeq_bool_iff in Ex, Ey.
  assert (Qle_bool (key y) (key x) = true) by (apply Qle_bool_iff; lra).
  congruence.
Qed.

Lemma sorted_reverse_stable_filter {A : Type} (key : A -> Q) (k : Q) (l : list A) :
  filter (fun y => Qeq_bool (key y) k) (sorted_reverse key l) =
  filter (fun y => Qeq_bool (key y) k) l.
Proof.
  induction l as [| x l IH]; [reflexivity |].
  cbn [sorted_reverse fold_right]. rewrite insert_desc_filter.
  cbn [filter]. fold (sorted_reverse key l). now rewrite IH.
Qed.

Lemma filter_head_split {A : Type} (f : A -> bool) (l : list A) (x : A) (rest : list A) :
  filter f l = x :: rest ->
  exists l1 l2, l = l1 ++ x :: l2 /\ forall y, In y l1 -> f y = false.
Proof.
  induction l as [| z l IH]; simpl; [discriminate |].
  destruct (f z) eqn:Fz.
  - intros [= -> _]. exists [], l. split; [reflexivity | contradiction].
  - intros H. destruct (IH H) as (l1 & l2 & -> & Hl).
    exists (z :: l1), l2. split; [reflexivity |].
    intros y [<- | Hy]; auto.
Qed.

Lemma find_filter_head {A : Type} (f g : A -> bool) (l : list A) (x : A) :
  find f l = Some x -> g x = true ->
  exists rest, filter (fun y => g y && f y) l = x :: rest.
Proof.
  induction l as [| z l IH]; simpl; [discriminate |].
  destruct (f z) eqn:Fz.
  - intros [= ->] Gx. rewrite Gx. simpl. eauto.
  - intros H Gx. rewrite andb_false_r. now apply IH.
Qed.

Lemma filter_and {A : Type} (f g : A -> bool) (l : list A) :
  filter (fun y => g y && f y) l = filter f (filter g l).
Proof.
  induction l as [| z l IH]; simpl; [reflexivity |].
  destruct (g z); simpl; [destruct (f z) |]; now rewrite IH.
Qed.

(** X2: when the contour returned passes the box test, every box that
    [findContours] lists before it has a strictly smaller area and every box
    listed after it has at most its area: of the boxes of greatest area the
    first one found is returned. *)
Theorem find_box_contour_first_of_largest (C : ContourPrimitives) (edges : Image)
    (result : Contour) :
  find_box_contour edges = Some result -> is_box result = true ->
  exists l1 l2,
    findContours edges = l1 ++ result :: l2 /\
    (forall c, In c l1 -> is_box c = true ->
               (contourArea c < contourArea result)%Q) /\
    (forall c, In c l2 -> is_box c = true ->
               (contourArea c <= contourArea result)%Q).
Proof.
  intros H Br.
  pose proof (sorted_reverse_perm contourArea (findContours edges)) as P.
  pose proof (sorted_reverse_sorted contourArea (findContours edges)) as S.
  assert (N : findContours edges <> []).
  { intros N. unfold find_box_contour in H. rewrite N in H. discriminate H. }
  rewrite find_box_contour_find in H by exact N.
  destruct (find is_box _) as [x |] eqn:Fi.
  2:{ destruct (sorted_reverse contourArea (findContours edges)) as [| y s] eqn:E;
        [discriminate H |].
      injection H as ->. apply find_none with (x := result) in Fi; [congruence | now left]. }
  injection H as ->.
  pose proof (find_sorted_greatest contourArea is_box _ result S Fi) as G.
  set (same := fun y : Contour => Qeq_bool (contourArea y) (contourArea result)).
  destruct (find_filter_head is_box same _ result Fi) as (rest & Hf).
  { unfold same. apply Qeq_bool_iff. reflexivity. }
  rewrite filter_and in Hf. unfold same in Hf at 1.
  rewrite sorted_reverse_stable_filter in Hf.
  fold same in Hf. rewrite <- filter_and in Hf.
  destruct (filter_head_split _ _ _ _ Hf) as (l1 & l2 & E & Hl1).
  exists l1, l2. split; [exact E |].
  assert (Le : forall c, In c (findContours edges) -> is_box c = true ->
                         (contourArea c <= contourArea result)%Q).
  { intros c Hc Bc. apply G; [| exact Bc]. now apply (Permutation_in _ P). }
  split.
  - intros c Hc Bc.
    assert (L := Le c ltac:(rewrite E; apply in_or_app; now left) Bc).
    specialize (Hl1 c Hc). rewrite Bc, andb_true_r in Hl1.
    unfold same in Hl1.
    apply Qle_lt_or_eq in L. destruct L as [L | L]; [exact L |].
    apply Qeq_bool_iff in L. congruence.
  - intros c Hc Bc. apply Le; [| exact Bc].
    rewrite E. apply in_or_app. right. now right.
Qed.

(** ** Detection *)

(** X3: [detect_box] returns the edge map of [preprocess_image]; its
    rectangle is [None] exactly when its contour is, which is exactly when
    the edge map has no contour; otherwise the contour is one of those found
    and the rectangle is its fitted rectangle. *)
Theorem detect_box_miss (C : ContourPrimitives) (F : FilterPrimitives) (image : Image) :
  let '(contour, rect, edges) := detect_box image in
  edges = preprocess_image image /\
  (rect = None <-> contour = None) /\
  (contour = None <-> findContours edges = []) /\
  (forall c, contour = Some c ->
             In c (findContours edges) /\ rect = Some (minAreaRect c)).
Proof.
  unfold detect_box. set (edges := preprocess_image image).
  destruct (find_box_contour edges) as [c |] eqn:E.
  - split; [reflexivity |]. split; [split; discriminate |]. split.
    + split; [discriminate |].
      intros N. apply find_box_contour_None in N. congruence.
    + intros c' [= <-]. split; [now apply find_box_contour_In | reflexivity].
  - split; [reflexivity |]. split; [tauto |]. split.
    + split; [intros _; now apply find_box_contour_None | reflexivity].
    + intros c' [=].
Qed.

(** ** Where the sticker position lies *)

Lemma linspace_30_between (start stop lo hi q : Q) :
  (lo <= start <= hi)%Q -> (lo <= stop <= hi)%Q ->
  In q (linspace start stop 30) -> (lo <= q <= hi)%Q.
Proof.
  intros Ha Hb H. apply (In_nth _ _ 0%Q) in H. destruct H as (i & Hi & <-).
  change (List.length (linspace start stop 30)) with 30%nat in Hi.
  rewrite linspace_30_nth by exact Hi.
  set (s := ((stop - start) / 29)%Q).
  assert (Hs : (29 * s == stop - start)%Q) by (unfold s; field).
  do 30 (destruct i as [| i];
         [cbn [Z.of_nat Pos.of_succ_nat Pos.succ]; unfold inject_Z; split; lra |]).
  lia.
Qed.

(** One coordinate of a candidate: rounding is monotone and leaves the
    centre and the corner as they are, so the float32 candidate stays
    between them, and so does its truncation. *)
Lemma candidate_between (c d : Z) (q : Q) :
  Z.abs c <= 2 ^ 23 -> Z.abs (c + d) <= 2 ^ 23 -> (0 <= q <= 1)%Q ->
  between c (c + d)
    (py_int (float32 (inject_Z c + float32 (inject_Z d * float32 q)))).
Proof.
  intros Hc Ht Hq. unfold between.
  change (2 ^ 23) with 8388608 in Hc, Ht.
  assert (P24 : 1 <= 24) by lia.
  assert (R : forall n, Z.abs n <= 16777216 -> representable 24 (inject_Z n)).
  { intros n Hn. apply representable_Z. exact Hn. }
  assert (Hq' : (0 <= float32 q <= 1)%Q).
  { apply (round_float_between 24 (inject_Z 0) (inject_Z 1) q P24);
      [apply R; simpl; lia | apply R; simpl; lia | exact Hq]. }
  set (q' := float32 q) in *.
  assert (A : (0 <= inject_Z (Z.abs d))%Q)
    by (change 0%Q with (inject_Z 0); rewrite <- Zle_Qle; lia).
  assert (P : (0 <= inject_Z (Z.abs d) * q' <= inject_Z (Z.abs d))%Q).
  { split.
    - apply Qmult_le_0_compat; [exact A | apply Hq'].
    - assert (0 <= inject_Z (Z.abs d) * (1 - q'))%Q
        by (apply Qmult_le_0_compat; lra).
      lra. }
  destruct (Z_le_gt_dec 0 d) as [Hd | Hd].
  - rewrite Z.abs_eq in P by exact Hd.
    assert (M : (inject_Z 0 <= float32 (inject_Z d * q') <= inject_Z d)%Q).
    { apply (round_float_between 24 _ _ _ P24); [apply R; simpl; lia | apply R; lia |].
      exact P. }
    change (inject_Z 0) with 0%Q in M.
    assert (F : (inject_Z c <= float32 (inject_Z c + float32 (inject_Z d * q'))
                 <= inject_Z (c + d))%Q).
    { apply (round_float_between 24 _ _ _ P24); [apply R; lia | apply R; lia |].
      rewrite inject_Z_plus. lra. }
    split.
    + apply py_int_ge. rewrite Z.min_l by lia. apply F.
    + apply py_int_le. rewrite Z.max_r by lia. apply F.
  - rewrite Z.abs_neq, inject_Z_opp in P by lia.
    assert (M : (inject_Z d <= float32 (inject_Z d * q') <= inject_Z 0)%Q).
    { apply (round_float_between 24 _ _ _ P24); [apply R; lia | apply R; simpl; lia |].
      change (inject_Z 0) with 0%Q. lra. }
    change (inject_Z 0) with 0%Q in M.
    assert (F : (inject_Z (c + d) <= float32 (inject_Z c + float32 (inject_Z d * q'))
                 <= inject_Z c)%Q).
    { apply (round_float_between 24 _ _ _ P24); [apply R; lia | apply R; lia |].
      rewrite inject_Z_plus. lra. }
    split.
    + apply py_int_ge. rewrite Z.min_r by lia. apply F.
    + apply py_int_le. rewrite Z.max_l by lia. apply F.
Qed.

(** X10: for an offset between 0 and 1 the position returned lies, in each
    coordinate, between the truncated centre and the anchor corner, whatever
    the point-in-polygon test answers, when float32 holds the coordinates
    of the two exactly. *)
Theorem calculate_sticker_position_between (G : GeometryPrimitives)
    (r : RotatedRect) (offset_percent : Q) :
  (0 <= offset_percent <= 1)%Q ->
  exists center_pt box_corners position,
    get_box_center (Some r) = Some center_pt /\
    get_box_corners (Some r) = Some box_corners /\
    calculate_sticker_position (Some r) offset_percent = Some position /\
    (float32_pixel center_pt -> float32_pixel (top_corner box_corners) ->
     between (fst center_pt) (fst (top_corner box_corners)) (fst position) /\
     between (snd center_pt) (snd (top_corner box_corners)) (snd position)).
Proof.
  intros Ho.
  unfold calculate_sticker_position, get_box_center, get_box_corners.
  destruct (center r) as [cx cy].
  set (c := (py_int cx, py_int cy)). set (box := np_int0 (boxPoints r)).
  exists c, box.
  assert (Hc : between (fst c) (fst (top_corner box)) (fst c) /\
               between (snd c) (snd (top_corner box)) (snd c))
    by (unfold between; lia).
  destruct (Qltb (norm (direction_to box c)) 1).
  { exists c. do 3 (split; [reflexivity |]). intros _ _. exact Hc. }
  destruct (search_offsets box c (direction_to box c) _) as [pt |] eqn:S.
  2:{ exists c. do 3 (split; [reflexivity |]). intros _ _. exact Hc. }
  exists pt. split; [reflexivity |]. split; [reflexivity |]. split; [reflexivity |].
  intros [Cx Cy] [Tx Ty].
  rewrite search_offsets_find in S. apply find_some in S. destruct S as [S _].
  apply in_map_iff in S. destruct S as (q & <- & Hq).
  apply (linspace_30_between _ _ 0 1) in Hq; [| exact Ho | split; discriminate].
  unfold candidate_pt, direction_to; cbn [fst snd].
  assert (Ex : fst c + (fst (top_corner box) - fst c) = fst (top_corner box)) by lia.
  assert (Ey : snd c + (snd (top_corner box) - snd c) = snd (top_corner box)) by lia.
  pose proof (candidate_between (fst c) (fst (top_corner box) - fst c) q Cx) as X.
  pose proof (candidate_between (snd c) (snd (top_corner box) - snd c) q Cy) as Y.
  rewrite Ex in X. rewrite Ey in Y.
  split; [apply X | apply Y]; assumption.
Qed.

Lemma calculate_sticker_position_between_witness :
  (0 <= 1 # 10 <= 1)%Q /\
  exists center_pt box_corners position,
    get_box_center (Some (mkRotatedRect (100, 100) (80, 80) 0)%Q) = Some center_pt /\
    get_box_corners (G := Reference.geometry)
      (Some (mkRotatedRect (100, 100) (80, 80) 0)%Q) = Some box_corners /\
    calculate_sticker_position (G := Reference.geometry)
      (Some (mkRotatedRect (100, 100) (80, 80) 0)%Q) (1 # 10) = Some position /\
    (float32_pixel center_pt /\ float32_pixel (top_corner box_corners)) /\
    between (fst center_pt) (fst (top_corner box_corners)) (fst position) /\
    between (snd center_pt) (snd (top_corner box_corners)) (snd position).
Proof.
  assert (H : (0 <= 1 # 10 <= 1)%Q) by (split; discriminate).
  split; [exact H |].
  destruct (calculate_sticker_position_between Reference.geometry
              (mkRotatedRect (100, 100) (80, 80) 0)%Q (1 # 10) H)
    as (center_pt & box_corners & position & Ec & Eb & Ep & B).
  exists center_pt, box_corners, position.
  split; [exact Ec |]. split; [exact Eb |]. split; [exact Ep |].
  assert (Fc : float32_pixel center_pt).
  { injection Ec as <-. unfold float32_pixel. simpl. lia. }
  assert (Ft : float32_pixel (top_corner box_corners)).
  { injection Eb as <-. unfold float32_pixel. simpl. lia. }
  split; [split; assumption | exact (B Fc Ft)].
Defined.

(** ** Placement on a face *)

Lemma py_max2_swap (a b : Q) : (py_max2 a b == py_max2 b a)%Q.
Proof. unfold py_max2. split_Qltb; lra. Qed.

(** X11: the placement on a face reads the centre and the larger side only:
    swapping width and height, or changing the fitted angle, changes
    nothing. *)
Theorem on_face_larger_side (cx cy w h angle angle' : Q) (face : string)
    (offset_percent : Q) :
  calculate_sticker_position_on_face
    (Some (mkRotatedRect (cx, cy) (w, h) angle)) face offset_percent =
  calculate_sticker_position_on_face
    (Some (mkRotatedRect (cx, cy) (h, w) angle')) face offset_percent.
Proof.
  unfold calculate_sticker_position_on_face, get_box_center; cbn [center size].
  unfold float64.
  rewrite (round_float_comp 53 (py_max2 w h * offset_percent)
             (py_max2 h w * offset_percent))
    by (apply Qmult_comp; [apply py_max2_swap | reflexivity]).
  reflexivity.
Qed.

(** X12: for a rectangle of non-negative size and a non-negative offset
    fraction, the four faces give the centre moved by one non-negative
    number of pixels: up for 'top', down for 'bottom', left for 'left' and
    right for 'right'. *)
Theorem on_face_directions (r : RotatedRect) (offset_percent : Q) :
  (0 <= fst (size r))%Q -> (0 <= snd (size r))%Q -> (0 <= offset_percent)%Q ->
  exists cx cy offset,
    0 <= offset /\
    get_box_center (Some r) = Some (cx, cy) /\
    calculate_sticker_position_on_face (Some r) "top" offset_percent
      = Some (cx, cy - offset) /\
    calculate_sticker_position_on_face (Some r) "bottom" offset_percent
      = Some (cx, cy + offset) /\
    calculate_sticker_position_on_face (Some r) "left" offset_percent
      = Some (cx - offset, cy) /\
    calculate_sticker_position_on_face (Some r) "right" offset_percent
      = Some (cx + offset, cy).
Proof.
  intros Hw Hh Ho.
  unfold calculate_sticker_position_on_face, get_box_center.
  destruct (center r) as [cx cy], (size r) as [w h]; cbn [fst snd] in *.
  exists (py_int cx), (py_int cy), (py_int (float64 (py_max2 w h * offset_percent))).
  split; [| repeat split].
  apply (proj1 (py_int_toward_zero _)).
  apply round_float_nonneg; [lia |].
  apply Qmult_le_0_compat; [| exact Ho].
  unfold py_max2. split_Qltb; lra.
Qed.

Lemma on_face_directions_witness :
  ((0 <= 80)%Q /\ (0 <= 40)%Q /\ (0 <= 1 # 10)%Q) /\
  exists cx cy offset,
    0 <= offset /\
    get_box_center (Some (mkRotatedRect (100, 100) (80, 40) 0)%Q) = Some (cx, cy) /\
    calculate_sticker_position_on_face
      (Some (mkRotatedRect (100, 100) (80, 40) 0)%Q) "top" (1 # 10)
      = Some (cx, cy - offset) /\
    calculate_sticker_position_on_face
      (Some (mkRotatedRect (100, 100) (80, 40) 0)%Q) "bottom" (1 # 10)
      = Some (cx, cy + offset) /\
    calculate_sticker_position_on_face
      (Some (mkRotatedRect (100, 100) (80, 40) 0)%Q) "left" (1 # 10)
      = Some (cx - offset, cy) /\
    calculate_sticker_position_on_face
      (Some (mkRotatedRect (100, 100) (80, 40) 0)%Q) "right" (1 # 10)
      = Some (cx + offset, cy).
Proof.
  assert (A : (0 <= 80)%Q) by discriminate.
  assert (B : (0 <= 40)%Q) by discriminate.
  assert (D : (0 <= 1 # 10)%Q) by discriminate.
  split; [repeat split; assumption |].
  exact (on_face_directions (mkRotatedRect (100, 100) (80, 40) 0)%Q (1 # 10) A B D).
Defined.

(** ** More on the compositor *)

(** X13: the placement rectangle has the sticker's width and height, its
    middle is the position or half a pixel after it, and it covers the
    position when the sticker is not empty. *)
Theorem placement_centred (sticker : Image) (sx sy : Z) :
  let '(x1, y1, x2, y2) := placement sticker (sx, sy) in
  (x2 - x1 = cols sticker /\ y2 - y1 = rows sticker) /\
  (0 <= (x1 + x2) - 2 * sx <= 1 /\ 0 <= (y1 + y2) - 2 * sy <= 1) /\
  (0 < cols sticker -> x1 <= sx < x2) /\
  (0 < rows sticker -> y1 <= sy < y2).
Proof.
  unfold placement.
  pose proof (Z.div_mod (cols sticker) 2 ltac:(lia)).
  pose proof (Z.mod_pos_bound (cols sticker) 2 ltac:(lia)).
  pose proof (Z.div_mod (rows sticker) 2 ltac:(lia)).
  pose proof (Z.mod_pos_bound (rows sticker) 2 ltac:(lia)).
  repeat split; lia.
Qed.

Lemma overlaps_or_not (image sticker : Image) (position : Point) (Y X : Z) :
  overlaps image sticker position Y X \/ ~ overlaps image sticker position Y X.
Proof.
  unfold overlaps. destruct (placement sticker position) as [[[x1 y1] x2] y2]. lia.
Qed.

Lemma overlaps_inside (image sticker : Image) (position : Point) (Y X : Z) :
  overlaps image sticker position Y X ->
  (0 <= Y < rows image /\ 0 <= X < cols image) /\
  let '(x1, y1, _, _) := placement sticker position in
  0 <= Y - y1 < rows sticker /\ 0 <= X - x1 < cols sticker.
Proof.
  unfold overlaps, placement. destruct position as [sx sy]. lia.
Qed.

(** X14: compositing a readable sticker of 3 or 4 channels onto a colour
    canvas raises no error, returns a canvas of the same shape, and changes
    no entry outside the colour channels of the pixels under the sticker,
    whatever the alpha values. *)
Theorem overlay_frame (I : ImagePrimitives)
    (image sticker0 sticker : Image)
    (sticker_path : string) (position : Point) (angle : option Q) (scale : Q) :
  path_exists sticker_path = true -> imread sticker_path = Some sticker0 ->
  prepare_sticker sticker0 angle scale = Some sticker ->
  shaped image -> chans image = 3 ->
  shaped sticker -> chans sticker = 3 \/ chans sticker = 4 ->
  exists image',
    overlay_sticker_image image sticker_path (Some position) angle scale
    = Some image' /\
    (rows image' = rows image /\ cols image' = cols image /\
     chans image' = chans image) /\
    forall Y X c,
      ~ (overlaps image sticker position Y X /\ 0 <= c < 3) ->
      pix image' Y X c = pix image Y X c.
Proof.
  intros He Hr Hp Si Ci Ss Cs.
  rewrite (overlay_sticker_image_loaded I image sticker0 sticker) by assumption.
  destruct Cs as [Cs | Cs].
  - destruct (place_sticker_rgb image sticker position Si Ss Ci Cs)
      as (image' & -> & Hrows & Hcols & Hchans & Hpix).
    exists image'. repeat split; auto. intros Y X c. apply Hpix.
  - destruct (place_sticker_alpha image sticker position Si Ss Ci Cs)
      as (image' & -> & Hrows & Hcols & Hchans & Hpix).
    exists image'. repeat split; auto. intros Y X c. apply Hpix.
Qed.

Lemma float32_error (k : Z) (x : Q) :
  (Qabs x <= 2 ^ k)%Q -> (x - 2 ^ (k - 25) <= float32 x <= x + 2 ^ (k - 25))%Q.
Proof.
  intros H. pose proof (round_float_error 24 k x ltac:(lia) H) as E.
  replace (k - 24 - 1) with (k - 25) in E by lia.
  apply Qabs_diff_Qle_condition in E. exact E.
Qed.

Lemma inject_Z_byte (n : Z) : 0 <= n < 256 -> (0 <= inject_Z n <= 255)%Q.
Proof.
  intros H. change 0%Q with (inject_Z 0). change 255%Q with (inject_Z 255).
  rewrite <- !Zle_Qle. lia.
Qed.

(** The float32 blend of two bytes is within [2^-15] of the exact blend
    with the rounded alpha, which lies between the two bytes. *)
Lemma blend_pixel_near (p s a : Z) :
  0 <= p < 256 -> 0 <= s < 256 -> 0 <= a <= 255 ->
  0 <= blend_pixel p s a /\ Z.min p s - 1 <= blend_pixel p s a <= Z.max p s.
Proof.
  intros Hp Hs Ha. unfold blend_pixel, to_uint8. cbv zeta.
  assert (P24 : 1 <= 24) by lia.
  assert (R : forall n, Z.abs n <= 16777216 -> representable 24 (inject_Z n)).
  { intros n Hn. apply representable_Z. exact Hn. }
  pose proof (inject_Z_byte p Hp) as Bp. pose proof (inject_Z_byte s Hs) as Bs.
  set (P := inject_Z p) in *. set (S := inject_Z s) in *.
  assert (Ht : (0 <= inject_Z a / 255 <= 1)%Q).
  { assert (E : (255 * (inject_Z a / 255) == inject_Z a)%Q) by field.
    assert (L : (inject_Z 0 <= inject_Z a)%Q) by (rewrite <- Zle_Qle; lia).
    assert (U : (inject_Z a <= inject_Z 255)%Q) by (rewrite <- Zle_Qle; lia).
    change (inject_Z 0) with 0%Q in L. change (inject_Z 255) with 255%Q in U.
    split; lra. }
  assert (Hal : (0 <= float32 (inject_Z a / 255) <= 1)%Q).
  { apply (round_float_between 24 (inject_Z 0) (inject_Z 1) _ P24);
      [apply R; simpl; lia | apply R; simpl; lia | exact Ht]. }
  set (al := float32 (inject_Z a / 255)) in *.
  assert (Hbe : (0 <= float32 (1 - al) <= 1)%Q).
  { apply (round_float_between 24 (inject_Z 0) (inject_Z 1) _ P24);
      [apply R; simpl; lia | apply R; simpl; lia |].
    change (inject_Z 0) with 0%Q. change (inject_Z 1) with 1%Q. lra. }
  assert (Ebe : (1 - al - 2 ^ (0 - 25) <= float32 (1 - al) <= 1 - al + 2 ^ (0 - 25))%Q).
  { apply float32_error. change (2 ^ 0)%Q with 1%Q. apply Qabs_Qle_condition. lra. }
  set (be := float32 (1 - al)) in *.
  assert (Pb : (0 <= P * be <= 255)%Q).
  { assert (0 <= P * be)%Q by (apply Qmult_le_0_compat; lra).
    assert (0 <= P * (1 - be))%Q by (apply Qmult_le_0_compat; lra). lra. }
  assert (Sa : (0 <= S * al <= 255)%Q).
  { assert (0 <= S * al)%Q by (apply Qmult_le_0_compat; lra).
    assert (0 <= S * (1 - al))%Q by (apply Qmult_le_0_compat; lra). lra. }
  assert (Hu : (0 <= float32 (P * be) <= 255)%Q).
  { apply (round_float_between 24 (inject_Z 0) (inject_Z 255) _ P24);
      [apply R; simpl; lia | apply R; simpl; lia | exact Pb]. }
  assert (Eu : (P * be - 2 ^ (8 - 25) <= float32 (P * be) <= P * be + 2 ^ (8 - 25))%Q).
  { apply float32_error. change (2 ^ 8)%Q with 256%Q. apply Qabs_Qle_condition. lra. }
  set (u := float32 (P * be)) in *.
  assert (Hv : (0 <= float32 (S * al) <= 255)%Q).
  { apply (round_float_between 24 (inject_Z 0) (inject_Z 255) _ P24);
      [apply R; simpl; lia | apply R; simpl; lia | exact Sa]. }
  assert (Ev : (S * al - 2 ^ (8 - 25) <= float32 (S * al) <= S * al + 2 ^ (8 - 25))%Q).
  { apply float32_error. change (2 ^ 8)%Q with 256%Q. apply Qabs_Qle_condition. lra. }
  set (v := float32 (S * al)) in *.
  assert (Hw : (0 <= float32 (u + v))%Q).
  { apply round_float_nonneg; [exact P24 | lra]. }
  assert (Ew : (u + v - 2 ^ (9 - 25) <= float32 (u + v) <= u + v + 2 ^ (9 - 25))%Q).
  { apply float32_error. change (2 ^ 9)%Q with 512%Q. apply Qabs_Qle_condition. lra. }
  set (w := float32 (u + v)) in *.
  change (2 ^ (0 - 25))%Q with (1 # 33554432)%Q in Ebe.
  change (2 ^ (8 - 25))%Q with (1 # 131072)%Q in Eu, Ev.
  change (2 ^ (9 - 25))%Q with (1 # 65536)%Q in Ew.
  (* the exact blend with the rounded alpha, and its distance to [w] *)
  assert (Pe : (- (1 # 100000) <= P * be - P * (1 - al) <= 1 # 100000)%Q).
  { assert (0 <= P * (be - (1 - al) + (1 # 33554432)))%Q
      by (apply Qmult_le_0_compat; lra).
    assert (0 <= P * ((1 - al) + (1 # 33554432) - be))%Q
      by (apply Qmult_le_0_compat; lra).
    assert (0 <= (255 - P) * (1 # 33554432))%Q by lra.
    lra. }
  assert (Mn : (inject_Z (Z.min p s) <= P * (1 - al) + S * al)%Q).
  { destruct (Z_le_gt_dec p s) as [L | L].
    - rewrite Z.min_l by lia. fold P.
      assert (LQ : (P <= S)%Q) by (unfold P, S; rewrite <- Zle_Qle; lia).
      assert (0 <= (S - P) * al)%Q by (apply Qmult_le_0_compat; lra). lra.
    - rewrite Z.min_r by lia. fold S.
      assert (LQ : (S <= P)%Q) by (unfold P, S; rewrite <- Zle_Qle; lia).
      assert (0 <= (P - S) * (1 - al))%Q by (apply Qmult_le_0_compat; lra). lra. }
  assert (Mx : (P * (1 - al) + S * al <= inject_Z (Z.max p s))%Q).
  { destruct (Z_le_gt_dec p s) as [L | L].
    - rewrite Z.max_r by lia. fold S.
      assert (LQ : (P <= S)%Q) by (unfold P, S; rewrite <- Zle_Qle; lia).
      assert (0 <= (S - P) * (1 - al))%Q by (apply Qmult_le_0_compat; lra). lra.
    - rewrite Z.max_l by lia. fold P.
      assert (LQ : (S <= P)%Q) by (unfold P, S; rewrite <- Zle_Qle; lia).
      assert (0 <= (P - S) * al)%Q by (apply Qmult_le_0_compat; lra). lra. }
  destruct (py_int_toward_zero w) as [T _]. destruct (T Hw) as [T0 T1].
  destruct (py_int_bounds w) as [_ U].
  assert (Lo : Z.min p s - 1 <= py_int w).
  { assert (L : (inject_Z (Z.min p s + -1) < inject_Z (py_int w + 1))%Q).
    { rewrite !inject_Z_plus. change (inject_Z (-1)) with (- (1))%Q.
      change (inject_Z 1) with 1%Q. lra. }
    rewrite <- Zlt_Qlt in L. lia. }
  assert (Hi : py_int w <= Z.max p s).
  { assert (L : (inject_Z (py_int w) < inject_Z (Z.max p s + 1))%Q).
    { rewrite inject_Z_plus. change (inject_Z 1) with 1%Q. lra. }
    rewrite <- Zlt_Qlt in L. lia. }
  rewrite Z.mod_small by lia. lia.
Qed.

(** X15: compositing a sticker with an alpha channel leaves every entry of
    the canvas a byte, and every blended entry is at most the greater of
    the old canvas value and the sticker's colour value and at least the
    smaller of the two less one: the float32 blend can fall below both. *)
Theorem overlay_blend_bounds (I : ImagePrimitives)
    (image sticker0 sticker : Image)
    (sticker_path : string) (position : Point) (angle : option Q) (scale : Q) :
  path_exists sticker_path = true -> imread sticker_path = Some sticker0 ->
  prepare_sticker sticker0 angle scale = Some sticker ->
  shaped image -> bytes image -> chans image = 3 ->
  shaped sticker -> bytes sticker -> chans sticker = 4 ->
  exists image',
    overlay_sticker_image image sticker_path (Some position) angle scale
    = Some image' /\
    bytes image' /\
    forall Y X c,
      overlaps image sticker position Y X -> 0 <= c < 3 ->
      Z.min (pix image Y X c) (sticker_at sticker position Y X c) - 1
      <= pix image' Y X c
      <= Z.max (pix image Y X c) (sticker_at sticker position Y X c).
Proof.
  intros He Hr Hp Si Bi Ci Ss Bs Cs.
  rewrite (overlay_sticker_image_loaded I image sticker0 sticker) by assumption.
  destruct (place_sticker_alpha image sticker position Si Ss Ci Cs)
    as (image' & -> & Hrows & Hcols & Hchans & Hpix).
  exists image'. split; [reflexivity |].
  assert (B : forall Y X c,
             overlaps image sticker position Y X -> 0 <= c < 3 ->
             0 <= pix image' Y X c /\
             Z.min (pix image Y X c) (sticker_at sticker position Y X c) - 1
             <= pix image' Y X c
             <= Z.max (pix image Y X c) (sticker_at sticker position Y X c)).
  { intros Y X c O Hc. rewrite (proj1 (Hpix Y X c) O Hc).
    destruct (overlaps_inside _ _ _ _ _ O) as [[HY HX] In].
    unfold sticker_at. destruct (placement sticker position) as [[[x1 y1] x2] y2].
    apply blend_pixel_near.
    - apply Bi; lia.
    - apply Bs; lia.
    - pose proof (Bs (Y - y1) (X - x1) 3 ltac:(lia) ltac:(lia) ltac:(lia)). lia. }
  split; [| intros Y X c O Hc; apply (B Y X c O Hc)].
  intros Y X c HY HX Hc. rewrite Hrows in HY. rewrite Hcols in HX. rewrite Hchans in Hc.
  destruct (overlaps_or_not image sticker position Y X) as [O | O].
  - specialize (B Y X c O ltac:(lia)).
    destruct (overlaps_inside _ _ _ _ _ O) as [_ In].
    unfold sticker_at in B.
    destruct (placement sticker position) as [[[x1 y1] x2] y2].
    pose proof (Bi Y X c HY HX Hc).
    pose proof (Bs (Y - y1) (X - x1) c ltac:(lia) ltac:(lia) ltac:(lia)).
    lia.
  - rewrite (proj2 (Hpix Y X c)) by tauto. now apply Bi.
Qed.

(** X16: a sticker without alpha channel overwrites: every canvas pixel
    under it takes the sticker's value. *)
Theorem overlay_rgb_overwrites (I : ImagePrimitives)
    (image sticker0 sticker : Image)
    (sticker_path : string) (position : Point) (angle : option Q) (scale : Q) :
  path_exists sticker_path = true -> imread sticker_path = Some sticker0 ->
  prepare_sticker sticker0 angle scale = Some sticker ->
  shaped image -> chans image = 3 ->
  shaped sticker -> chans sticker = 3 ->
  exists image',
    overlay_sticker_image image sticker_path (Some position) angle scale
    = Some image' /\
    forall Y X c,
      overlaps image sticker position Y X -> 0 <= c < 3 ->
      pix image' Y X c = sticker_at sticker position Y X c.
Proof.
  intros He Hr Hp Si Ci Ss Cs.
  rewrite (overlay_sticker_image_loaded I image sticker0 sticker) by assumption.
  destruct (place_sticker_rgb image sticker position Si Ss Ci Cs)
    as (image' & -> & _ & _ & _ & Hpix).
  exists image'. split; [reflexivity |].
  intros Y X c. apply Hpix.
Qed.

(** ** The prepared sticker *)

(** X17: when resizing raises on a target size without pixels and returns
    arrays of the requested size, and resizing and warping keep the
    channels of their source: a sticker of 3 or 4 channels whose size,
    multiplied by a scale other than 1 and truncated, has no pixel cannot
    be prepared (the exception of [cv2.resize]); and a sticker that is
    prepared has been resized to exactly that size, which is positive, when
    the scale is not 1, and keeps its number of channels through the
    rotation, where a 4-channel sticker is put together again from its 3
    warped colour channels and its warped alpha channel. *)
Theorem prepare_sticker_shape (I : ImagePrimitives) (sticker : Image)
    (angle : option Q) (scale : Q) :
  sized_resampling I -> chans sticker = 3 \/ chans sticker = 4 ->
  let new_h := py_int (float64 (inject_Z (rows sticker) * scale)) in
  let new_w := py_int (float64 (inject_Z (cols sticker) * scale)) in
  (~ (scale == 1)%Q -> new_w <= 0 \/ new_h <= 0 ->
   prepare_sticker sticker angle scale = None) /\
  (forall prepared,
     prepare_sticker sticker angle scale = Some prepared ->
     exists scaled,
       scale_sticker sticker scale = Some scaled /\
       prepared = rotate_sticker scaled angle /\
       (~ (scale == 1)%Q ->
        (rows scaled = new_h /\ cols scaled = new_w) /\ 0 < new_h /\ 0 < new_w) /\
       chans scaled = chans sticker /\
       chans prepared = chans sticker).
Proof.
  intros R Hk new_h new_w.
  assert (S : forall scaled, scale_sticker sticker scale = Some scaled ->
              (~ (scale == 1)%Q ->
               (rows scaled = new_h /\ cols scaled = new_w) /\ 0 < new_h /\ 0 < new_w) /\
              chans scaled = chans sticker).
  { intros scaled. unfold scale_sticker.
    destruct (Qeq_bool scale 1) eqn:E; cbn [negb]; cbv zeta; fold new_h new_w.
    - intros [= <-]. apply Qeq_bool_iff in E. split; [contradiction | reflexivity].
    - intros Hs. destruct (R sticker new_w new_h) as (Rn & Rs & _).
      destruct (Rs scaled Hs) as (W1 & W2 & W3).
      split; [| exact W3]. intros _. split; [split; assumption |].
      destruct (Z_le_gt_dec new_h 0) as [L | L];
        [rewrite Rn in Hs by lia; discriminate Hs |].
      destruct (Z_le_gt_dec new_w 0) as [L' | L'];
        [rewrite Rn in Hs by lia; discriminate Hs |].
      lia. }
  split.
  - intros Ns Empty. unfold prepare_sticker, scale_sticker.
    destruct (Qeq_bool scale 1) eqn:E; [apply Qeq_bool_iff in E; contradiction |].
    cbn [negb]; cbv zeta; fold new_h new_w.
    destruct (R sticker new_w new_h) as (Rn & _). now rewrite Rn.
  - intros prepared. unfold prepare_sticker.
    destruct (scale_sticker sticker scale) as [scaled |] eqn:Hs; [| discriminate].
    intros [= <-]. exists scaled. destruct (S scaled eq_refl) as [Sz Sk].
    split; [reflexivity |]. split; [reflexivity |]. split; [exact Sz |].
    split; [exact Sk |]. rewrite <- Sk in Hk |- *.
    unfold rotate_sticker. destruct angle as [a |]; [| reflexivity].
    destruct (Qeq_bool a 0); [reflexivity |].
    destruct (getRotationMatrix2D _ a 1) as [[[m00 m01] m02] [[m10 m11] m12]].
    cbv zeta.
    destruct (Z.eqb_spec (chans scaled) 4) as [E4 | E4];
      unfold dstack; cbn [chans];
      repeat match goal with
      | |- context [warpAffine ?src ?M (?w, ?h)] =>
          rewrite (proj2 (proj2 (R src w h)) M)
      end.
    + unfold crop_chans. rewrite E4. reflexivity.
    + reflexivity.
Qed.

(** ** The exact instances meet the hypotheses *)

Lemma reference_sized_resampling (s : Image) : sized_resampling (Reference.images s).
Proof.
  intros src w h. split; [| split].
  - intros E. cbn [resize Reference.images fst snd].
    destruct (Z.ltb_spec 0 w), (Z.ltb_spec 0 h); try reflexivity; lia.
  - intros dst. cbn [resize Reference.images fst snd].
    destruct ((0 <? w) && (0 <? h)); [| discriminate].
    intros [= <-]. repeat split.
  - intros M. repeat split.
Qed.

Lemma reference_rgb_sticker_shaped (v : Z) : shaped (Reference.rgb_sticker v).
Proof. unfold shaped; simpl; lia. Qed.

Lemma prepare_sticker_shape_witness :
  (sized_resampling (Reference.images (Reference.flat_sticker 7 255)) /\
   (chans (Reference.flat_sticker 7 255) = 3 \/
    chans (Reference.flat_sticker 7 255) = 4)) /\
  exists prepared,
    prepare_sticker (I := Reference.images (Reference.flat_sticker 7 255))
      (Reference.flat_sticker 7 255) None 2 = Some prepared /\
    rows prepared = 4 /\ cols prepared = 4 /\ chans prepared = 4.
Proof.
  split.
  - split; [apply reference_sized_resampling | right; reflexivity].
  - destruct (prepare_sticker_shape
                (Reference.images (Reference.flat_sticker 7 255))
                (Reference.flat_sticker 7 255) None 2
                (reference_sized_resampling _) (or_intror eq_refl)) as [_ P].
    eexists. split; [reflexivity |].
    destruct (P _ eq_refl) as (scaled & _ & _ & _ & _ & Ek).
    split; [| split]; [reflexivity | reflexivity | exact Ek].
Defined.

Lemma find_box_contour_first_of_largest_witness :
  let found := [Reference.square_contour 0 0 40;
                Reference.square_contour 100 0 50;
                Reference.square_contour 200 0 50] in
  let result := Reference.square_contour 100 0 50 in
  let edges : Image := mkRaster 0 0 1 (fun _ _ _ => 0) in
  (find_box_contour (C := Reference.contours found) edges = Some result /\
   is_box (C := Reference.contours found) result = true) /\
  exists l1 l2,
    found = l1 ++ result :: l2 /\
    (forall c, In c l1 -> is_box (C := Reference.contours found) c = true ->
               (Reference.polygon_area c < Reference.polygon_area result)%Q) /\
    (forall c, In c l2 -> is_box (C := Reference.contours found) c = true ->
               (Reference.polygon_area c <= Reference.polygon_area result)%Q).
Proof.
  cbv zeta.
  assert (A : find_box_contour
                (C := Reference.contours
                        [Reference.square_contour 0 0 40;
                         Reference.square_contour 100 0 50;
                         Reference.square_contour 200 0 50])
                (mkRaster 0 0 1 (fun _ _ _ => 0))
              = Some (Reference.square_contour 100 0 50)) by reflexivity.
  assert (B : is_box
                (C := Reference.contours
                        [Reference.square_contour 0 0 40;
                         Reference.square_contour 100 0 50;
                         Reference.square_contour 200 0 50])
                (Reference.square_contour 100 0 50) = true) by reflexivity.
  split; [split; assumption |].
  exact (find_box_contour_first_of_largest _ _ _ A B).
Defined.

Lemma overlay_frame_witness :
  exists image',
    overlay_sticker_image (I := Reference.images (Reference.flat_sticker 200 128))
      Reference.canvas "sticker.png" (Some (0, 3)) None 1 = Some image' /\
    (rows image' = 4 /\ cols image' = 4 /\ chans image' = 3) /\
    forall Y X c,
      ~ (overlaps Reference.canvas (Reference.flat_sticker 200 128) (0, 3) Y X
         /\ 0 <= c < 3) ->
      pix image' Y X c = pix Reference.canvas Y X c.
Proof.
  exact (overlay_frame (Reference.images (Reference.flat_sticker 200 128))
           Reference.canvas (Reference.flat_sticker 200 128) (Reference.flat_sticker 200 128)
           "sticker.png" (0, 3) None 1
           eq_refl eq_refl eq_refl reference_canvas_shaped eq_refl
           (reference_sticker_shaped 200 128) (or_intror eq_refl)).
Defined.

Lemma overlay_blend_bounds_witness :
  exists image',
    overlay_sticker_image (I := Reference.images (Reference.flat_sticker 200 128))
      Reference.canvas "sticker.png" (Some (0, 3)) None 1 = Some image' /\
    bytes image' /\
    forall Y X c,
      overlaps Reference.canvas (Reference.flat_sticker 200 128) (0, 3) Y X ->
      0 <= c < 3 ->
      Z.min (pix Reference.canvas Y X c)
            (sticker_at (Reference.flat_sticker 200 128) (0, 3) Y X c) - 1
      <= pix image' Y X c
      <= Z.max (pix Reference.canvas Y X c)
               (sticker_at (Reference.flat_sticker 200 128) (0, 3) Y X c).
Proof.
  exact (overlay_blend_bounds (Reference.images (Reference.flat_sticker 200 128))
           Reference.canvas (Reference.flat_sticker 200 128) (Reference.flat_sticker 200 128)
           "sticker.png" (0, 3) None 1
           eq_refl eq_refl eq_refl reference_canvas_shaped reference_canvas_bytes eq_refl
           (reference_sticker_shaped 200 128)
           (reference_sticker_bytes 200 128 ltac:(lia) ltac:(lia)) eq_refl).
Defined.

Lemma overlay_rgb_overwrites_witness :
  exists image',
    overlay_sticker_image (I := Reference.images (Reference.rgb_sticker 9))
      Reference.canvas "sticker.jpg" (Some (4, 1)) None 1 = Some image' /\
    forall Y X c,
      overlaps Reference.canvas (Reference.rgb_sticker 9) (4, 1) Y X ->
      0 <= c < 3 ->
      pix image' Y X c = sticker_at (Reference.rgb_sticker 9) (4, 1) Y X c.
Proof.
  exact (overlay_rgb_overwrites (Reference.images (Reference.rgb_sticker 9))
           Reference.canvas (Reference.rgb_sticker 9) (Reference.rgb_sticker 9)
           "sticker.jpg" (4, 1) None 1
           eq_refl eq_refl eq_refl reference_canvas_shaped eq_refl
           (reference_rgb_sticker_shaped 9) eq_refl).
Defined.

Example overlay_blend_pixels :
  match overlay_sticker_image (I := Reference.images (Reference.flat_sticker 200 128))
          Reference.canvas "sticker.png" (Some (0, 3)) None 1 with
  | Some image' =>
      pix image' 2 0 0 = 116 /\ pix image' 3 0 2 = 125 /\
      pix image' 2 1 0 = pix Reference.canvas 2 1 0
  | None => False
  end.
Proof. vm_compute. repeat split. Qed.
